(** * Shipping-discount structural rewrite: scanner, property locator, driver

    Shallow embedding of the depth-tracking helpers and of
    [rewriteShippingDiscountOutput] (src/migrate-extensions.js, lines 413-564;
    src/upgrade-functions.js, lines 202-373 holds the same text).

    A JavaScript string is a sequence of UTF-16 code units, modelled as a list
    of [N]; offsets are JavaScript numbers holding small integers, modelled as
    [Z] so that the [-1] of [findBalancedEnd] and [indexOf] and the [+ 1]
    applied to it read as in the source.  A [while] loop whose cursor strictly
    advances is a [Fixpoint] on a fuel argument that the wrapper sets to the
    distance to the end of the buffer; the two loops that can spin
    ([extractProp] and the driver that calls it) keep their fuel visible and
    answer [None] when it runs out. *)

From Stdlib Require Import ZArith NArith List Bool Lia String Ascii.
Import ListNotations.
Open Scope Z_scope.

(** ** JavaScript string primitives *)

Module Js.

Definition jsstring := list N.

(** A source literal, one code unit per character. *)
Definition lit (s : string) : jsstring :=
  map N_of_ascii (list_ascii_of_string s).

(** [s.length] *)
Definition length (s : jsstring) : Z := Z.of_nat (List.length s).

(** [s[i]]: [None] stands for [undefined]. *)
Definition get (s : jsstring) (i : Z) : option N :=
  if i <? 0 then None else nth_error s (Z.to_nat i).

(** [s[i] === 'c'] for a one-character literal. *)
Definition is_ch (o : option N) (c : N) : bool :=
  match o with Some x => N.eqb x c | None => false end.

(** [a === b] where both sides are [s[i]] values. *)
Definition same_ch (a b : option N) : bool :=
  match a, b with
  | Some x, Some y => N.eqb x y
  | None, None => true
  | _, _ => false
  end.

Fixpoint str_eqb (a b : jsstring) : bool :=
  match a, b with
  | [], [] => true
  | x :: a', y :: b' => N.eqb x y && str_eqb a' b'
  | _, _ => false
  end.

Definition clamp (s : jsstring) (i : Z) : Z := Z.max 0 (Z.min i (length s)).

(** [s.substring(a, b)]: both ends clamped to [0, length], swapped when
    [a > b]. *)
Definition substring (s : jsstring) (a b : Z) : jsstring :=
  let a' := clamp s a in
  let b' := clamp s b in
  let from := Z.min a' b' in
  let to := Z.max a' b' in
  firstn (Z.to_nat (to - from)) (skipn (Z.to_nat from) s).

(** [s.substring(a)] *)
Definition substring_from (s : jsstring) (a : Z) : jsstring :=
  substring s a (length s).

Fixpoint prefixb (p s : jsstring) : bool :=
  match p, s with
  | [], _ => true
  | x :: p', y :: s' => N.eqb x y && prefixb p' s'
  | _ :: _, [] => false
  end.

(** First offset [>= k] at which [p] occurs in the text whose suffix from
    [k] is [rest]; [-1] when there is none. *)
Fixpoint indexOf_in (p rest : jsstring) (k : Z) : Z :=
  if prefixb p rest then k
  else match rest with
       | [] => -1
       | _ :: rest' => indexOf_in p rest' (k + 1)
       end.

(** [s.indexOf(p, from)] *)
Definition indexOf (s p : jsstring) (from : Z) : Z :=
  let k := clamp s from in
  indexOf_in p (skipn (Z.to_nat k) s) k.

(** [s.includes(p)] *)
Definition includes (s p : jsstring) : bool := 0 <=? indexOf s p 0.

(** The code units matched by the regular expression class [\s], which are
    also the ones [trim] strips. *)
Definition is_space (c : N) : bool :=
  ((9 <=? c) && (c <=? 13) || (c =? 32) || (c =? 160) || (c =? 5760)
   || (8192 <=? c) && (c <=? 8202) || (c =? 8232) || (c =? 8233)
   || (c =? 8239) || (c =? 8287) || (c =? 12288) || (c =? 65279))%N.

Fixpoint dropWhile (p : N -> bool) (s : jsstring) : jsstring :=
  match s with
  | [] => []
  | c :: s' => if p c then dropWhile p s' else s
  end.

Fixpoint takeWhile (p : N -> bool) (s : jsstring) : jsstring :=
  match s with
  | [] => []
  | c :: s' => if p c then c :: takeWhile p s' else []
  end.

(** [s.trim()] *)
Definition trim (s : jsstring) : jsstring :=
  rev (dropWhile is_space (rev (dropWhile is_space s))).

(** The leading run of white space of [s], which is what matching [s]
    against a start anchor followed by a greedy run of [\s] captures. *)
Definition leading_space (s : jsstring) : jsstring := takeWhile is_space s.

(** [s.split('\n')]: the current line is accumulated in reverse in [cur]. *)
Fixpoint split_lines_acc (s cur : jsstring) : list jsstring :=
  match s with
  | [] => [rev cur]
  | c :: s' =>
      if N.eqb c 10 then rev cur :: split_lines_acc s' []
      else split_lines_acc s' (c :: cur)
  end.

Definition split_lines (s : jsstring) : list jsstring := split_lines_acc s [].

(** [lines.join('\n')] *)
Fixpoint join_lines (ls : list jsstring) : jsstring :=
  match ls with
  | [] => []
  | [l] => l
  | l :: ls' => l ++ 10%N :: join_lines ls'
  end.

(** [s.repeat(n)] *)
Fixpoint repeat (s : jsstring) (n : nat) : jsstring :=
  match n with
  | O => []
  | S n' => s ++ repeat s n'
  end.

End Js.

Import Js.

(** ** Character constants *)

Definition backslash : N := 92.
Definition dquote : N := 34.
Definition squote : N := 39.
Definition backtick : N := 96.
Definition dollar : N := 36.
Definition lbrace : N := 123.
Definition rbrace : N := 125.
Definition lbrack : N := 91.
Definition rbrack : N := 93.
Definition comma : N := 44.
Definition colon : N := 58.
Definition blank : N := 32.
Definition newline : N := 10.
Definition tab : N := 9.

(** Iterations that a forward scan starting at [i] can need. *)
Definition fuel_for (str : jsstring) (i : Z) : nat :=
  Z.to_nat (Js.length str - i).

(** [while (i < str.length && p(str[i])) i++] *)
Fixpoint scanWhile_loop (fuel : nat) (p : N -> bool) (str : jsstring) (i : Z) : Z :=
  match fuel with
  | O => i
  | S fuel' =>
      if (i <? Js.length str)
         && match get str i with Some c => p c | None => false end
      then scanWhile_loop fuel' p str (i + 1)
      else i
  end.

Definition scanWhile (p : N -> bool) (str : jsstring) (i : Z) : Z :=
  scanWhile_loop (fuel_for str i) p str i.

(** ** Lexical scanner *)

(** The loop of [skipQuoted]. *)
Fixpoint skipQuoted_loop (fuel : nat) (str : jsstring) (q : option N) (i : Z) : Z :=
  match fuel with
  | O => i
  | S fuel' =>
      if i <? Js.length str then
        if is_ch (get str i) backslash then skipQuoted_loop fuel' str q (i + 2)
        else if same_ch (get str i) q then i + 1
        else skipQuoted_loop fuel' str q (i + 1)
      else i
  end.

(** The loop entered with cursor [i]. *)
Definition skipQuoted_from (str : jsstring) (q : option N) (i : Z) : Z :=
  skipQuoted_loop (fuel_for str i) str q i.

Definition skipQuoted (str : jsstring) (pos : Z) : Z :=
  skipQuoted_from str (get str pos) (pos + 1).

(** The inner loop of [skipTemplate], entered just after [${] with [d = 1]:
    [while (i < str.length && d > 0) { ...; i++ }]. *)
Fixpoint skipInterpolation_loop (fuel : nat) (str : jsstring) (i d : Z) : Z :=
  match fuel with
  | O => i
  | S fuel' =>
      if (i <? Js.length str) && (0 <? d) then
        let d' :=
          if is_ch (get str i) lbrace then d + 1
          else if is_ch (get str i) rbrace then d - 1
          else d in
        skipInterpolation_loop fuel' str (i + 1) d'
      else i
  end.

Definition skipInterpolation (str : jsstring) (i d : Z) : Z :=
  skipInterpolation_loop (fuel_for str i) str i d.

(** The outer loop of [skipTemplate]. *)
Fixpoint skipTemplate_loop (fuel : nat) (str : jsstring) (i : Z) : Z :=
  match fuel with
  | O => i
  | S fuel' =>
      if i <? Js.length str then
        if is_ch (get str i) backslash then skipTemplate_loop fuel' str (i + 2)
        else if is_ch (get str i) dollar && is_ch (get str (i + 1)) lbrace then
          skipTemplate_loop fuel' str (skipInterpolation str (i + 2) 1)
        else if is_ch (get str i) backtick then i + 1
        else skipTemplate_loop fuel' str (i + 1)
      else i
  end.

(** The loop entered with cursor [i]. *)
Definition skipTemplate_from (str : jsstring) (i : Z) : Z :=
  skipTemplate_loop (fuel_for str i) str i.

(** [pos] is the offset of the opening backtick.  The source computes
    [pos + 1] on numbers; the sum is the exact integer for the offsets of a
    string (below 2^53), which is where every caller takes [pos] from and
    where the properties of this function are stated. *)
Definition skipTemplate (str : jsstring) (pos : Z) : Z :=
  skipTemplate_from str (pos + 1).

(** The loop of [findBalancedEnd]; leaving the loop returns [-1]. *)
Fixpoint findBalancedEnd_loop (fuel : nat) (str : jsstring)
    (open : option N) (close : N) (depth i : Z) : Z :=
  match fuel with
  | O => -1
  | S fuel' =>
      if i <? Js.length str then
        let ch := get str i in
        if is_ch ch dquote || is_ch ch squote then
          findBalancedEnd_loop fuel' str open close depth (skipQuoted str i)
        else if is_ch ch backtick then
          findBalancedEnd_loop fuel' str open close depth (skipTemplate str i)
        else if same_ch ch open then
          findBalancedEnd_loop fuel' str open close (depth + 1) (i + 1)
        else if is_ch ch close then
          if depth - 1 =? 0 then i
          else findBalancedEnd_loop fuel' str open close (depth - 1) (i + 1)
        else findBalancedEnd_loop fuel' str open close depth (i + 1)
      else -1
  end.

(** The loop entered with this [depth] and cursor [i]. *)
Definition findBalancedEnd_from (str : jsstring) (open : option N) (close : N)
    (depth i : Z) : Z :=
  findBalancedEnd_loop (fuel_for str i) str open close depth i.

Definition findBalancedEnd (str : jsstring) (pos : Z) : Z :=
  let open := get str pos in
  let close := if is_ch open lbrace then rbrace else rbrack in
  findBalancedEnd_from str open close 0 pos.

(** ** Property locator *)

(** The character class that ends a token in [extractProp]: white space,
    the two openers, the two closers, the three quote characters and the
    comma. *)
Definition is_token_stop (c : N) : bool :=
  is_space c
  || N.eqb c lbrace || N.eqb c lbrack || N.eqb c backtick || N.eqb c dquote
  || N.eqb c squote || N.eqb c comma || N.eqb c rbrace || N.eqb c rbrack.

Definition is_blank (c : N) : bool := N.eqb c blank.

(** The extent of a property value that starts at [j]: the [end] computed
    before [return { value: body.substring(j, end) }]. *)
Definition valueEnd (body : jsstring) (j : Z) : Z :=
  if is_ch (get body j) lbrace then findBalancedEnd body j + 1
  else if is_ch (get body j) lbrack then findBalancedEnd body j + 1
  else if is_ch (get body j) backtick then skipTemplate body j
  else if is_ch (get body j) dquote || is_ch (get body j) squote then
    skipQuoted body j
  else
    scanWhile (fun c => negb (N.eqb c comma) && negb (N.eqb c newline)) body j.

(** The block guarded by [body.substring(i, i + name.length) === name]:
    [Some v] when it returns [{ value: v }], [None] when control falls
    through to the token skip. *)
Definition matchProp (body name : jsstring) (i : Z) : option jsstring :=
  if str_eqb (substring body i (i + Js.length name)) name then
    let j := scanWhile is_blank body (i + Js.length name) in
    if is_ch (get body j) colon then
      let j := scanWhile is_blank body (j + 1) in
      Some (substring body j (valueEnd body j))
    else None
  else None.

(** The tail of the loop body: the cursor after the current token. *)
Definition skipToken (body : jsstring) (i : Z) : Z :=
  if is_ch (get body i) lbrace then findBalancedEnd body i + 1
  else if is_ch (get body i) lbrack then findBalancedEnd body i + 1
  else if is_ch (get body i) backtick then skipTemplate body i
  else if is_ch (get body i) dquote || is_ch (get body i) squote then
    skipQuoted body i
  else
    let i := scanWhile (fun c => negb (is_token_stop c)) body i in
    if (i <? Js.length body)
       && (is_ch (get body i) comma || is_ch (get body i) colon)
    then i + 1 else i.

(** What one turn of the [while] of [extractProp] does. *)
Inductive turn : Type :=
  | Break                     (* leaves the loop: [return null] *)
  | Return (v : jsstring)     (* [return { value: v }] *)
  | Next (i : Z).             (* goes round again with this cursor *)

Definition extractProp_turn (body name : jsstring) (i : Z) : turn :=
  let i := scanWhile is_space body i in
  if Js.length body <=? i then Break
  else match matchProp body name i with
       | Some v => Return v
       | None => Next (skipToken body i)
       end.

(** [extractProp] run for at most [fuel] turns of its loop.  The outer
    [option] is [None] when the loop is still running after [fuel] turns;
    inside, [None] is [null] and [Some v] is [{ value: v }]. *)
Fixpoint extractProp_loop (fuel : nat) (body name : jsstring) (i : Z)
    : option (option jsstring) :=
  match fuel with
  | O => None
  | S fuel' =>
      if i <? Js.length body then
        match extractProp_turn body name i with
        | Break => Some None
        | Return v => Some (Some v)
        | Next i' => extractProp_loop fuel' body name i'
        end
      else Some None
  end.

Definition extractProp (fuel : nat) (body name : jsstring) : option (option jsstring) :=
  extractProp_loop fuel body name 0.

(** ** Indentation model *)

Fixpoint reindent_from (idx : nat) (extra : jsstring) (ls : list jsstring) : list jsstring :=
  match ls with
  | [] => []
  | line :: ls' =>
      (if Nat.eqb idx 0 || str_eqb (trim line) [] then line else extra ++ line)
      :: reindent_from (S idx) extra ls'
  end.

Definition reindentLines (text extra : jsstring) : jsstring :=
  join_lines (reindent_from 0 extra (split_lines text)).

Definition detectIndentUnit (content : jsstring) : jsstring :=
  if includes content [newline; tab] then [tab] else [blank; blank].

(** ** Structural rewrite driver *)

Definition anchor : jsstring := lit "operations:".
Definition marker : jsstring := lit "deliveryDiscountsAdd".

(** The [for] loop that looks for the first [{] after the [[]. *)
Fixpoint findElemStart_loop (fuel : nat) (content : jsstring) (i : Z) : Z :=
  match fuel with
  | O => -1
  | S fuel' =>
      if i <? Js.length content then
        if is_ch (get content i) lbrace then i
        else if is_ch (get content i) rbrack then -1
        else if negb (match get content i with
                      | Some c => is_space c
                      | None => false
                      end) then -1
        else findElemStart_loop fuel' content (i + 1)
      else -1
  end.

Definition findElemStart (content : jsstring) (i : Z) : Z :=
  findElemStart_loop (fuel_for content i) content i.

(** [while (ls > 0 && content[ls - 1] !== '\n') ls--] *)
Fixpoint lineStart_loop (fuel : nat) (content : jsstring) (ls : Z) : Z :=
  match fuel with
  | O => ls
  | S fuel' =>
      if (0 <? ls) && negb (is_ch (get content (ls - 1)) newline)
      then lineStart_loop fuel' content (ls - 1)
      else ls
  end.

Definition lineStart (content : jsstring) (elemStart : Z) : Z :=
  lineStart_loop (Z.to_nat elemStart) content elemStart.

(** What the driver finds from [searchFrom], up to the balanced end of the
    element (steps Search and Locate element). *)
Inductive located : Type :=
  | NoAnchor                              (* [break] *)
  | Skip (searchFrom : Z)                 (* [continue] with this cursor *)
  | Candidate (elemStart elemEnd : Z).

Definition locateElement (content : jsstring) (searchFrom : Z) : located :=
  let idx := indexOf content anchor searchFrom in
  if idx =? -1 then NoAnchor
  else
    let bi :=
      scanWhile is_space content (idx + Js.length anchor) in
    if negb (is_ch (get content bi) lbrack) then Skip bi
    else
      let elemStart := findElemStart content (bi + 1) in
      if elemStart =? -1 then Skip (bi + 1)
      else
        let elemEnd := findBalancedEnd content elemStart in
        if elemEnd =? -1 then Skip (elemStart + 1)
        else Candidate elemStart elemEnd.

(** The three property texts of an accepted element. *)
Record shape : Type := mkShape {
  valueP : jsstring;
  targetsP : jsstring;
  messageP : jsstring
}.

(** Step Shape check on the element body.  Outer [None]: one of the
    [extractProp] calls is still running after [fuel] turns.  Inner [None]:
    the element is rejected. *)
Definition checkShape (fuel : nat) (body : jsstring) : option (option shape) :=
  if includes body marker then Some None
  else
    match extractProp fuel body (lit "value") with
    | None => None
    | Some v =>
      match extractProp fuel body (lit "targets") with
      | None => None
      | Some t =>
        match extractProp fuel body (lit "message") with
        | None => None
        | Some m =>
          match v, t, m with
          | Some v', Some t', Some m' => Some (Some (mkShape v' t' m'))
          | _, _, _ => Some None
          end
        end
      end
    end.

(** Step Assemble: [newElem]. *)
Definition newElem (elemIndent unit : jsstring) (p : shape) : jsstring :=
  let i1 := elemIndent ++ unit in
  let i2 := i1 ++ unit in
  let i3 := i2 ++ unit in
  let i4 := i3 ++ unit in
  let extra := Js.repeat unit 3 in
  elemIndent ++ lit "{" ++ [newline] ++
  i1 ++ lit "deliveryDiscountsAdd: {" ++ [newline] ++
  i2 ++ lit "selectionStrategy: " ++ [dquote] ++ lit "ALL" ++ [dquote] ++ lit "," ++ [newline] ++
  i2 ++ lit "candidates: [" ++ [newline] ++
  i3 ++ lit "{" ++ [newline] ++
  i4 ++ lit "targets: " ++ reindentLines (targetsP p) extra ++ lit "," ++ [newline] ++
  i4 ++ lit "value: " ++ reindentLines (valueP p) extra ++ lit "," ++ [newline] ++
  i4 ++ lit "message: " ++ trim (messageP p) ++ lit "," ++ [newline] ++
  i4 ++ lit "associatedDiscountCode: null," ++ [newline] ++
  i3 ++ lit "}," ++ [newline] ++
  i2 ++ lit "]," ++ [newline] ++
  i1 ++ lit "}," ++ [newline] ++
  elemIndent ++ lit "}".

(** Step Splice: the returned string for an accepted element. *)
Definition splice (content unit : jsstring) (elemStart elemEnd : Z) (p : shape) : jsstring :=
  let ls := lineStart content elemStart in
  let elemIndent := leading_space (substring content ls elemStart) in
  substring content 0 ls ++ newElem elemIndent unit p
  ++ substring_from content (elemEnd + 1).

(** The [while (searchFrom < content.length)] loop, for at most [fuel]
    turns, each [extractProp] call being given [n] turns. *)
Fixpoint rewrite_loop (n fuel : nat) (content unit : jsstring) (searchFrom : Z)
    : option jsstring :=
  match fuel with
  | O => None
  | S fuel' =>
      if searchFrom <? Js.length content then
        match locateElement content searchFrom with
        | NoAnchor => Some content
        | Skip searchFrom' => rewrite_loop n fuel' content unit searchFrom'
        | Candidate elemStart elemEnd =>
            match checkShape n (substring content (elemStart + 1) elemEnd) with
            | None => None
            | Some None => rewrite_loop n fuel' content unit (elemEnd + 1)
            | Some (Some p) => Some (splice content unit elemStart elemEnd p)
            end
        end
      else Some content
  end.

(** [rewriteShippingDiscountOutput(content)] with a budget of [fuel] turns
    for each loop that may fail to advance; [None] when the budget is
    used up before the function returns. *)
Definition rewriteShippingDiscountOutput (fuel : nat) (content : jsstring) : option jsstring :=
  if includes content marker then Some content
  else rewrite_loop fuel fuel content (detectIndentUnit content) 0.

(** ** Naming helpers

    [segments], [toSnake], [toKebab], [toPascal], [toCamel] and
    [apiVersionToPackageVersion] (src/migrate-extensions.js, lines 256-268;
    src/upgrade-functions.js, lines 69-76; src/upgrade-ui-extensions.js,
    lines 35-38). *)

Definition dot : N := 46.
Definition hyphen : N := 45.
Definition underscore : N := 95.

(** [s.split(sep)] for a separator that matches exactly one character: the
    pieces between the characters that satisfy [sep]; the current piece is
    accumulated in reverse in [cur]. *)
Fixpoint split_acc (sep : N -> bool) (s cur : jsstring) : list jsstring :=
  match s with
  | [] => [rev cur]
  | c :: s' =>
      if sep c then rev cur :: split_acc sep s' []
      else split_acc sep s' (c :: cur)
  end.

Definition split_on (sep : N -> bool) (s : jsstring) : list jsstring :=
  split_acc sep s [].

(** [pieces.join(glue)] *)
Fixpoint join_with (glue : jsstring) (ls : list jsstring) : jsstring :=
  match ls with
  | [] => []
  | [l] => l
  | l :: ls' => l ++ glue ++ join_with glue ls'
  end.

(** The character class of [segments]: a dot or a hyphen. *)
Definition is_separator (c : N) : bool := N.eqb c dot || N.eqb c hyphen.

Definition segments (target : jsstring) : list jsstring :=
  split_on is_separator target.

Definition toSnake (target : jsstring) : jsstring :=
  join_with [underscore] (segments target).

(** [target.replace(/\./g, "-")]: every dot becomes a hyphen. *)
Definition toKebab (target : jsstring) : jsstring :=
  flat_map (fun c => if N.eqb c dot then [hyphen] else [c]) target.

(** [array.map(f)] for an [f] that may throw: [None] when some call throws. *)
Fixpoint map_throwing {A B : Type} (f : A -> option B) (l : list A) : option (list B) :=
  match l with
  | [] => Some []
  | x :: l' =>
      match f x with
      | None => None
      | Some y =>
          match map_throwing f l' with
          | None => None
          | Some ys => Some (y :: ys)
          end
      end
  end.

Section Naming.

(** [String.prototype.toUpperCase] and [toLowerCase] on a string of one
    code unit; the Unicode case tables are not part of the sources. *)
Variable toUpperCase : N -> jsstring.
Variable toLowerCase : N -> jsstring.

(** [s[0].toUpperCase() + s.slice(1)]; reading a property of [s[0]]
    throws when [s] is empty. *)
Definition capitalize (s : jsstring) : option jsstring :=
  match s with
  | [] => None
  | c :: rest => Some (toUpperCase c ++ rest)
  end.

(** [None]: a [TypeError] is thrown. *)
Definition toPascal (target : jsstring) : option jsstring :=
  option_map (join_with []) (map_throwing capitalize (segments target)).

Definition toCamel (target : jsstring) : option jsstring :=
  match toPascal target with
  | None => None
  | Some p =>
      match p with
      | [] => None
      | c :: rest => Some (toLowerCase c ++ rest)
      end
  end.

End Naming.

(** The case mappings on the ASCII letters, identity elsewhere: what
    [toUpperCase] and [toLowerCase] do to a code unit below 128. *)
Definition ascii_upper (c : N) : jsstring :=
  if ((97 <=? c) && (c <=? 122))%N then [(c - 32)%N] else [c].

Definition ascii_lower (c : N) : jsstring :=
  if ((65 <=? c) && (c <=? 90))%N then [(c + 32)%N] else [c].

(** A value interpolated in a template literal: [undefined] prints as the
    word. *)
Definition interpolate (o : option jsstring) : jsstring :=
  match o with
  | Some s => s
  | None => lit "undefined"
  end.

(** [const [year, month] = apiVersion.split("-")] and the template
    [`${year}.${month}.x`]. *)
Definition apiVersionToPackageVersion (apiVersion : jsstring) : jsstring :=
  let parts := split_on (N.eqb hyphen) apiVersion in
  interpolate (nth_error parts 0) ++ lit "." ++ interpolate (nth_error parts 1)
  ++ lit ".x".

(** ** TOML helpers

    [extractTarget], [extractApiVersion], [extractExtensionType] and
    [rewriteApiVersion] (src/migrate-extensions.js, lines 274-294;
    src/upgrade-functions.js, lines 93-96; src/upgrade-ui-extensions.js,
    lines 44-54).  Their regular expressions are a key, white space, an
    equals sign, white space and a quoted value.  Each repetition in them
    is followed by a character that the repetition cannot take, so a match
    attempt has one way to go and is written here as a function of the
    text at the position tried. *)

Definition equals : N := 61.
Definition ampersand : N := 38.
Definition less_than : N := 60.

Definition not_dquote (c : N) : bool := negb (N.eqb c dquote).

(** One attempt at the start of [rest]: the key, a run of white space, the
    equals sign, a run of white space, a double quote, the characters up
    to the next double quote (at least one when [nonempty], as the
    extractors ask with a plus where [rewriteApiVersion] has a star) and
    that double quote.  The result is the text before the opening quote,
    the text between the quotes and the text after the closing quote. *)
Definition match_assign (key : jsstring) (nonempty : bool) (rest : jsstring)
    : option (jsstring * jsstring * jsstring) :=
  if prefixb key rest then
    let r1 := skipn (List.length key) rest in
    match dropWhile is_space r1 with
    | c :: r2 =>
        if N.eqb c equals then
          match dropWhile is_space r2 with
          | q :: r3 =>
              if N.eqb q dquote then
                match dropWhile not_dquote r3 with
                | _ :: r4 =>
                    if nonempty && str_eqb (takeWhile not_dquote r3) [] then None
                    else Some (key ++ takeWhile is_space r1 ++ [equals]
                                   ++ takeWhile is_space r2,
                               takeWhile not_dquote r3, r4)
                | [] => None
                end
              else None
          | [] => None
          end
        else None
    | [] => None
    end
  else None.

(** The first position, from the left, at which an attempt succeeds, with
    the text before it. *)
Fixpoint search {R : Type} (attempt : jsstring -> option R)
    (before_rev rest : jsstring) : option (jsstring * R) :=
  match attempt rest with
  | Some r => Some (rev before_rev, r)
  | None =>
      match rest with
      | [] => None
      | c :: rest' => search attempt (c :: before_rev) rest'
      end
  end.

(** [content.match(re)] for the expression of an extractor, then the first
    group of the match or [null]. *)
Definition extract_assigned (key content : jsstring) : option jsstring :=
  match search (match_assign key true) [] content with
  | Some (_, (_, value, _)) => Some value
  | None => None
  end.

Definition extractTarget : jsstring -> option jsstring :=
  extract_assigned (lit "target").
Definition extractApiVersion : jsstring -> option jsstring :=
  extract_assigned (lit "api_version").
Definition extractExtensionType : jsstring -> option jsstring :=
  extract_assigned (lit "type").

Definition is_digit (c : N) : bool := ((48 <=? c) && (c <=? 57))%N.

(** The [n]-th group, counted from one. *)
Definition capture (captures : list jsstring) (n : N) : option jsstring :=
  if (n =? 0)%N then None else nth_error captures (N.to_nat n - 1).

(** The replacement text of [String.prototype.replace] for a replacement
    string [t] (the GetSubstitution operation of the language, for an
    expression without named groups whose groups all took part in the
    match): [$$], [$&], the text before and after the match, and [$n],
    [$nn] for the groups. *)
Fixpoint expand (captures : list jsstring) (matched before after t : jsstring)
    : jsstring :=
  match t with
  | [] => []
  | c :: t1 =>
      if N.eqb c dollar then
        match t1 with
        | [] => [c]
        | d :: t2 =>
            if N.eqb d dollar then dollar :: expand captures matched before after t2
            else if N.eqb d backtick then
              before ++ expand captures matched before after t2
            else if N.eqb d ampersand then
              matched ++ expand captures matched before after t2
            else if N.eqb d squote then
              after ++ expand captures matched before after t2
            else if is_digit d then
              let one :=
                match capture captures (d - 48) with
                | Some g => g ++ expand captures matched before after t2
                | None => c :: d :: expand captures matched before after t2
                end in
              match t2 with
              | e :: t3 =>
                  if is_digit e then
                    let index := (10 * (d - 48) + (e - 48))%N in
                    if (N.of_nat (List.length captures) <? index)%N then one
                    else
                      match capture captures index with
                      | Some g => g ++ expand captures matched before after t3
                      | None => c :: d :: e :: expand captures matched before after t3
                      end
                  else one
              | [] => one
              end
            else if N.eqb d less_than then
              c :: d :: expand captures matched before after t2
            else c :: expand captures matched before after t1
        end
      else c :: expand captures matched before after t1
  end.

(** [tomlContent.replace(re, `$1"${newVersion}"`)]: the first match is
    replaced, a text without a match is returned as it is. *)
Definition rewriteApiVersion (tomlContent newVersion : jsstring) : jsstring :=
  match search (match_assign (lit "api_version") false) [] tomlContent with
  | None => tomlContent
  | Some (before, (head, old, tail)) =>
      before
      ++ expand [head] (head ++ [dquote] ++ old ++ [dquote]) before tail
           (lit "$1" ++ [dquote] ++ newVersion ++ [dquote])
      ++ tail
  end.

(** ** Specification-side vocabulary *)

(** [p] occurs somewhere in [s]. *)
Definition occurs (p s : jsstring) : Prop :=
  exists pre post, s = pre ++ p ++ post.

(** The element that the driver accepts: reached by the search, balanced,
    free of the marker and holding the three properties. *)
Definition accepted (n : nat) (content : jsstring) (es ee : Z) (p : shape) : Prop :=
  exists sf,
    locateElement content sf = Candidate es ee
    /\ checkShape n (substring content (es + 1) ee) = Some (Some p).

(** What a character adds to the nesting depth of one kind of bracket. *)
Definition bracket_step (open close c : N) : Z :=
  if N.eqb c open then 1 else if N.eqb c close then -1 else 0.

(** Openers minus closers of a text. *)
Fixpoint net (open close : N) (l : jsstring) : Z :=
  match l with
  | [] => 0
  | c :: l' => bracket_step open close c + net open close l'
  end.

(** A text is balanced for one kind of bracket when it has as many closers
    as openers and no prefix of it has more closers than openers. *)
Definition balanced (open close : N) (l : jsstring) : Prop :=
  net open close l = 0 /\ forall j, 0 <= net open close (firstn j l).

(** A text without quote characters and backticks: no string and no
    template literal starts in it. *)
Definition plain (l : jsstring) : bool :=
  forallb (fun c => negb (N.eqb c dquote || N.eqb c squote || N.eqb c backtick)) l.

(** A text without a line break. *)
Definition one_line (l : jsstring) : bool :=
  forallb (fun c => negb (N.eqb c newline)) l.

(** What [reindentLines] does to a line that is not the first one. *)
Definition reindent_line (extra line : jsstring) : jsstring :=
  if str_eqb (trim line) [] then line else extra ++ line.

(** A target one of whose segments is empty: it is empty, starts or ends
    with a separator, or holds two separators in a row. *)
Inductive empty_segment : jsstring -> Prop :=
  | ES_nothing : empty_segment []
  | ES_first c rest : is_separator c = true -> empty_segment (c :: rest)
  | ES_last a c : is_separator c = true -> empty_segment (a ++ [c])
  | ES_twice a c1 c2 b :
      is_separator c1 = true -> is_separator c2 = true ->
      empty_segment (a ++ c1 :: c2 :: b).

(** The text of an assignment: what stands before the opening quote of
    the value, the value between its quotes, and what follows. *)
Definition assignment (head value tail : jsstring) : jsstring :=
  head ++ dquote :: value ++ dquote :: tail.

(** The left-hand side of an assignment to [key]. *)
Definition assign_head (key ws1 ws2 : jsstring) : jsstring :=
  key ++ ws1 ++ equals :: ws2.

(** A key as the sources use them: not empty, without white space, equals
    sign or double quote. *)
Definition key_ok (key : jsstring) : bool :=
  negb (str_eqb key [])
  && forallb (fun c => negb (is_space c) && negb (N.eqb c equals)
                       && negb (N.eqb c dquote)) key.

Definition no_dollar (t : jsstring) : bool :=
  forallb (fun c => negb (N.eqb c dollar)) t.

(** How a scan for a closing delimiter ends. *)
Inductive scan_end : Type :=
  | Closed (r : Z)          (* [r] is just past the closing delimiter *)
  | Unterminated (r : Z).   (* the scan ran off the buffer and stopped at [r] *)

Definition offset (e : scan_end) : Z :=
  match e with Closed r => r | Unterminated r => r end.

(** The scan of a quoted string as the scanner contract words it: from
    offset [i] inside a string opened by [q], an escape consumes two
    characters whatever the second one is, the first quote met otherwise
    closes the string, and any other character is passed over. *)
Inductive quoted_scan (str : jsstring) (q : N) : Z -> scan_end -> Prop :=
  | QS_eof i :
      Js.length str <= i ->
      quoted_scan str q i (Unterminated i)
  | QS_escape i e :
      i < Js.length str -> get str i = Some backslash ->
      quoted_scan str q (i + 2) e ->
      quoted_scan str q i e
  | QS_close i :
      i < Js.length str -> get str i = Some q -> q <> backslash ->
      quoted_scan str q i (Closed (i + 1))
  | QS_char i c e :
      i < Js.length str -> get str i = Some c -> c <> backslash -> c <> q ->
      quoted_scan str q (i + 1) e ->
      quoted_scan str q i e.

(** The template scan as the scanner contract words it: escapes are passed
    over, and an interpolation is balanced brace by brace while the strings
    and templates inside the interpolated expression are skipped with the
    scanner itself.  [spec_template_end] starts just after the opening
    backtick, [spec_interpolation_end] just after an opening [${] with
    [d = 1]. *)
Fixpoint spec_template_end (fuel : nat) (str : jsstring) (i : Z) : Z :=
  match fuel with
  | O => i
  | S fuel' =>
      if i <? Js.length str then
        if is_ch (get str i) backslash then spec_template_end fuel' str (i + 2)
        else if is_ch (get str i) dollar && is_ch (get str (i + 1)) lbrace then
          spec_template_end fuel' str (spec_interpolation_end fuel' str (i + 2) 1)
        else if is_ch (get str i) backtick then i + 1
        else spec_template_end fuel' str (i + 1)
      else i
  end
with spec_interpolation_end (fuel : nat) (str : jsstring) (i d : Z) : Z :=
  match fuel with
  | O => i
  | S fuel' =>
      if (i <? Js.length str) && (0 <? d) then
        if is_ch (get str i) dquote || is_ch (get str i) squote then
          spec_interpolation_end fuel' str (skipQuoted str i) d
        else if is_ch (get str i) backtick then
          spec_interpolation_end fuel' str (spec_template_end fuel' str (i + 1)) d
        else if is_ch (get str i) lbrace then
          spec_interpolation_end fuel' str (i + 1) (d + 1)
        else if is_ch (get str i) rbrace then
          spec_interpolation_end fuel' str (i + 1) (d - 1)
        else spec_interpolation_end fuel' str (i + 1) d
      else i
  end.

Definition spec_skipTemplate (str : jsstring) (pos : Z) : Z :=
  spec_template_end (fuel_for str pos) str (pos + 1).

(** [findBalancedEnd] over [spec_skipTemplate]. *)
Fixpoint spec_findBalancedEnd_loop (fuel : nat) (str : jsstring)
    (open : option N) (close : N) (depth i : Z) : Z :=
  match fuel with
  | O => -1
  | S fuel' =>
      if i <? Js.length str then
        let ch := get str i in
        if is_ch ch dquote || is_ch ch squote then
          spec_findBalancedEnd_loop fuel' str open close depth (skipQuoted str i)
        else if is_ch ch backtick then
          spec_findBalancedEnd_loop fuel' str open close depth (spec_skipTemplate str i)
        else if same_ch ch open then
          spec_findBalancedEnd_loop fuel' str open close (depth + 1) (i + 1)
        else if is_ch ch close then
          if depth - 1 =? 0 then i
          else spec_findBalancedEnd_loop fuel' str open close (depth - 1) (i + 1)
        else spec_findBalancedEnd_loop fuel' str open close depth (i + 1)
      else -1
  end.

Definition spec_findBalancedEnd (str : jsstring) (pos : Z) : Z :=
  let open := get str pos in
  let close := if is_ch open lbrace then rbrace else rbrack in
  spec_findBalancedEnd_loop (fuel_for str pos) str open close 0 pos.

(** ** Scenarios *)

Definition quoted (s : jsstring) : jsstring := [dquote] ++ s ++ [dquote].

(** The end-to-end scenario of the specification. *)
Definition scenario_value : jsstring := lit "{ percentage: { value: 10 } }".
Definition scenario_targets : jsstring :=
  lit "[{ deliveryOption: { handle: " ++ quoted (lit "h") ++ lit " } }]".
Definition scenario_message : jsstring := quoted (lit "10% off shipping").

Definition scenario_input : jsstring :=
  lit "return { operations: [{ value: " ++ scenario_value
  ++ lit ", targets: " ++ scenario_targets
  ++ lit ", message: " ++ scenario_message ++ lit " }] };".

Definition scenario_output : jsstring :=
  join_lines
    [ lit "{";
      lit "  deliveryDiscountsAdd: {";
      lit "    selectionStrategy: " ++ quoted (lit "ALL") ++ lit ",";
      lit "    candidates: [";
      lit "      {";
      lit "        targets: " ++ scenario_targets ++ lit ",";
      lit "        value: " ++ scenario_value ++ lit ",";
      lit "        message: " ++ scenario_message ++ lit ",";
      lit "        associatedDiscountCode: null,";
      lit "      },";
      lit "    ],";
      lit "  },";
      lit "}] };" ].

(** The [Before] block of the README section on shipping discount output
    restructuring, after the [discounts:] key has been renamed to
    [operations:] by the caller. *)
Definition readme_before : jsstring :=
  join_lines
    [ lit "return {";
      lit "  operations: [{";
      lit "    value: { percentage: { value: 10 } },";
      lit "    targets: [{ deliveryOption: { handle: " ++ quoted (lit "...") ++ lit " } }],";
      lit "    message: " ++ quoted (lit "10% off shipping");
      lit "  }]";
      lit "};" ].

(** What the driver returns for [readme_before]. *)
Definition readme_rewritten : jsstring :=
  join_lines
    [ lit "return {";
      lit "  {";
      lit "    deliveryDiscountsAdd: {";
      lit "      selectionStrategy: " ++ quoted (lit "ALL") ++ lit ",";
      lit "      candidates: [";
      lit "        {";
      lit "          targets: [{ deliveryOption: { handle: " ++ quoted (lit "...") ++ lit " } }],";
      lit "          value: { percentage: { value: 10 } },";
      lit "          message: " ++ quoted (lit "10% off shipping") ++ lit ",";
      lit "          associatedDiscountCode: null,";
      lit "        },";
      lit "      ],";
      lit "    },";
      lit "  }]";
      lit "};" ].

(** A template literal whose interpolation is the string literal made of a
    closing brace and a backtick. *)
Definition tricky_template : jsstring := lit "`${'}`'}`".

(** An object literal whose only content is [tricky_template]. *)
Definition tricky_object : jsstring := lit "{" ++ tricky_template ++ lit "}".

(** An object body with [value] at depth zero and another [value] inside
    the child object [a]. *)
Definition nested_child : jsstring :=
  lit "{ b: " ++ tricky_template ++ lit " + 'x}\'', value: 1 }".

Definition nested_body : jsstring :=
  lit "a: " ++ nested_child ++ lit ", value: 2".

(** A quote followed by a lone backslash. *)
Definition dangling_escape : jsstring := lit "'\".

(** A file whose first element holds a stray opening bracket. *)
Definition stray_bracket_file : jsstring := lit "operations: [{ [ }".

(** A well-formed file whose first element starts with a line comment that
    holds a closing bracket. *)
Definition bracket_comment_file : jsstring :=
  lit "return { operations: [{ // ]" ++ [newline]
  ++ lit "  value: 1, targets: [], message: 'm' }] };".

(** A file that mentions the marker in a comment only. *)
Definition commented_file : jsstring :=
  lit "// deliveryDiscountsAdd" ++ [newline] ++ scenario_input.

(** A file without the anchor keyword. *)
Definition plain_file : jsstring := lit "return { discounts: [] };".

(** A file whose first element stands alone on its line, and what the
    driver returns for it. *)
Definition own_line_file : jsstring :=
  join_lines
    [ lit "return {";
      lit "  operations: [";
      lit "    {";
      lit "      value: {";
      lit "        percentage: { value: 10 }";
      lit "      },";
      lit "      targets: [],";
      lit "      message: 'm'";
      lit "    }";
      lit "  ]";
      lit "};" ].

Definition own_line_rewritten : jsstring :=
  join_lines
    [ lit "return {";
      lit "  operations: [";
      lit "    {";
      lit "      deliveryDiscountsAdd: {";
      lit "        selectionStrategy: " ++ quoted (lit "ALL") ++ lit ",";
      lit "        candidates: [";
      lit "          {";
      lit "            targets: [],";
      lit "            value: {";
      lit "              percentage: { value: 10 }";
      lit "            },";
      lit "            message: 'm',";
      lit "            associatedDiscountCode: null,";
      lit "          },";
      lit "        ],";
      lit "      },";
      lit "    }";
      lit "  ]";
      lit "};" ].

(** A configuration text with two assignments to [api_version]. *)
Definition two_versions : jsstring :=
  join_lines
    [ lit "name = " ++ quoted (lit "demo");
      lit "api_version = " ++ quoted (lit "2025-07");
      lit "api_version = " ++ quoted (lit "2024-10") ].

(** * Properties *)

(** ** Strings *)

Lemma length_nonneg (s : jsstring) : 0 <= Js.length s.
Proof. unfold Js.length. lia. Qed.

Lemma length_app (a b : jsstring) : Js.length (a ++ b) = Js.length a + Js.length b.
Proof. unfold Js.length. rewrite List.length_app. lia. Qed.

Lemma get_Some_range (s : jsstring) (i : Z) (c : N) :
  get s i = Some c -> 0 <= i < Js.length s.
Proof.
  unfold get, Js.length. destruct (i <? 0) eqn:Hneg; [discriminate|].
  intros H. apply Z.ltb_ge in Hneg.
  assert (Hlt : (Z.to_nat i < List.length s)%nat).
  { apply nth_error_Some. congruence. }
  lia.
Qed.

Lemma get_in_range (s : jsstring) (i : Z) :
  0 <= i < Js.length s -> exists c, get s i = Some c.
Proof.
  unfold get, Js.length. intros [Hlo Hhi].
  destruct (i <? 0) eqn:Hneg; [apply Z.ltb_lt in Hneg; lia|].
  destruct (nth_error s (Z.to_nat i)) as [c|] eqn:Hnth; [eauto|].
  apply nth_error_None in Hnth. lia.
Qed.

Lemma prefixb_true (p s : jsstring) :
  prefixb p s = true <-> exists post, s = p ++ post.
Proof.
  revert s. induction p as [|x p IH]; intros s; simpl.
  - split; [eauto | reflexivity].
  - destruct s as [|y s].
    + split; [discriminate | intros [post H]; discriminate].
    + rewrite andb_true_iff, N.eqb_eq, IH. split.
      * intros [-> [post ->]]. eauto.
      * intros [post H]. injection H as -> ->. eauto.
Qed.

Lemma indexOf_in_range (p rest : jsstring) (k : Z) :
  indexOf_in p rest k = -1 \/ k <= indexOf_in p rest k.
Proof.
  revert k. induction rest as [|c rest IH]; intros k; simpl.
  - destruct (prefixb p []); [right; lia | left; reflexivity].
  - destruct (prefixb p (c :: rest)); [right; lia|].
    destruct (IH (k + 1)) as [H|H]; [left; exact H | right; lia].
Qed.

Lemma indexOf_in_found (p rest : jsstring) (k : Z) :
  0 <= k -> (0 <= indexOf_in p rest k <-> occurs p rest).
Proof.
  revert k. induction rest as [|c rest IH]; intros k Hk; simpl.
  - destruct (prefixb p []) eqn:Hp.
    + split; [|lia]. intros _. apply prefixb_true in Hp as [post Hp].
      exists [], post. exact Hp.
    + split; [lia|]. intros [pre [post H]].
      destruct pre; [|discriminate].
      assert (prefixb p [] = true) by (apply prefixb_true; eauto).
      congruence.
  - destruct (prefixb p (c :: rest)) eqn:Hp.
    + split; [|lia]. intros _. apply prefixb_true in Hp as [post Hp].
      exists [], post. exact Hp.
    + rewrite (IH (k + 1)) by lia. split.
      * intros [pre [post ->]]. exists (c :: pre), post. reflexivity.
      * intros [pre [post H]]. destruct pre as [|c' pre].
        -- assert (prefixb p (c :: rest) = true) by (apply prefixb_true; eauto).
           congruence.
        -- injection H as _ ->. exists pre, post. reflexivity.
Qed.

Lemma indexOf_zero (s p : jsstring) : indexOf s p 0 = indexOf_in p s 0.
Proof.
  unfold indexOf, clamp. pose proof (length_nonneg s).
  replace (Z.max 0 (Z.min 0 (Js.length s))) with 0 by lia. reflexivity.
Qed.

(** [includes] decides [occurs]. *)
Lemma includes_occurs (s p : jsstring) : includes s p = true <-> occurs p s.
Proof.
  unfold includes. rewrite indexOf_zero, Z.leb_le.
  apply indexOf_in_found. lia.
Qed.

Lemma not_occurs_indexOf (s p : jsstring) :
  ~ occurs p s -> indexOf s p 0 = -1.
Proof.
  intros Hno. rewrite indexOf_zero.
  destruct (indexOf_in_range p s 0) as [H|H]; [exact H|].
  exfalso. apply Hno. apply (indexOf_in_found p s 0); lia.
Qed.

Lemma occurs_app_l (p a b : jsstring) : occurs p a -> occurs p (a ++ b).
Proof.
  intros [pre [post ->]]. exists pre, (post ++ b).
  now rewrite <- !app_assoc.
Qed.

Lemma occurs_app_r (p a b : jsstring) : occurs p b -> occurs p (a ++ b).
Proof.
  intros [pre [post ->]]. exists (a ++ pre), post.
  now rewrite <- !app_assoc.
Qed.

(** ** The fuel of the advancing loops

    Each of these loops moves its cursor forward at every turn, so the
    distance to the end of the buffer is fuel enough: with that much fuel or
    more the result is the same, and the wrappers satisfy the equation of
    the [while] loop they stand for. *)

Ltac fuel_lia := unfold fuel_for in *; lia.

Lemma scanWhile_loop_fuel (p : N -> bool) (str : jsstring) :
  forall (f1 f2 : nat) (i : Z),
    (fuel_for str i <= f1)%nat -> (fuel_for str i <= f2)%nat ->
    scanWhile_loop f1 p str i = scanWhile_loop f2 p str i.
Proof.
  induction f1 as [|f1 IH]; intros [|f2] i H1 H2; simpl; try reflexivity;
    destruct (Z.ltb_spec i (Js.length str)) as [Hlt|Hge]; simpl;
    try reflexivity; try fuel_lia.
  destruct (match get str i with Some c => p c | None => false end);
    [apply IH; fuel_lia | reflexivity].
Qed.

Lemma scanWhile_eq (p : N -> bool) (str : jsstring) (i : Z) :
  scanWhile p str i =
  if (i <? Js.length str)
     && match get str i with Some c => p c | None => false end
  then scanWhile p str (i + 1)
  else i.
Proof.
  unfold scanWhile. destruct (fuel_for str i) as [|f] eqn:Hf; simpl.
  - destruct (Z.ltb_spec i (Js.length str)) as [Hlt|Hge]; [fuel_lia | reflexivity].
  - destruct (Z.ltb_spec i (Js.length str)) as [Hlt|Hge]; [|reflexivity].
    simpl.
    destruct (match get str i with Some c => p c | None => false end);
      [apply scanWhile_loop_fuel; fuel_lia | reflexivity].
Qed.

Lemma scanWhile_loop_ge (p : N -> bool) (str : jsstring) :
  forall (fuel : nat) (i : Z), i <= scanWhile_loop fuel p str i.
Proof.
  induction fuel as [|fuel IH]; intros i; simpl; [lia|].
  destruct ((i <? Js.length str)
            && match get str i with Some c => p c | None => false end);
    [specialize (IH (i + 1)); lia | lia].
Qed.

Lemma skipQuoted_loop_fuel (str : jsstring) (q : option N) :
  forall (f1 f2 : nat) (i : Z),
    (fuel_for str i <= f1)%nat -> (fuel_for str i <= f2)%nat ->
    skipQuoted_loop f1 str q i = skipQuoted_loop f2 str q i.
Proof.
  induction f1 as [|f1 IH]; intros [|f2] i H1 H2; simpl; try reflexivity;
    destruct (Z.ltb_spec i (Js.length str)) as [Hlt|Hge];
    try reflexivity; try fuel_lia.
  destruct (is_ch (get str i) backslash); [apply IH; fuel_lia|].
  destruct (same_ch (get str i) q); [reflexivity | apply IH; fuel_lia].
Qed.

Lemma skipQuoted_loop_ge (str : jsstring) (q : option N) :
  forall (fuel : nat) (i : Z), i <= skipQuoted_loop fuel str q i.
Proof.
  induction fuel as [|fuel IH]; intros i; simpl; [lia|].
  destruct (i <? Js.length str); [|lia].
  destruct (is_ch (get str i) backslash); [specialize (IH (i + 2)); lia|].
  destruct (same_ch (get str i) q); [lia | specialize (IH (i + 1)); lia].
Qed.

Lemma skipQuoted_advances (str : jsstring) (pos : Z) : pos < skipQuoted str pos.
Proof.
  unfold skipQuoted, skipQuoted_from.
  pose proof (skipQuoted_loop_ge str (get str pos) (fuel_for str (pos + 1)) (pos + 1)).
  lia.
Qed.

Lemma skipInterpolation_loop_fuel (str : jsstring) :
  forall (f1 f2 : nat) (i d : Z),
    (fuel_for str i <= f1)%nat -> (fuel_for str i <= f2)%nat ->
    skipInterpolation_loop f1 str i d = skipInterpolation_loop f2 str i d.
Proof.
  induction f1 as [|f1 IH]; intros [|f2] i d H1 H2; simpl; try reflexivity;
    destruct (Z.ltb_spec i (Js.length str)) as [Hlt|Hge]; simpl;
    try reflexivity; try fuel_lia.
  destruct (0 <? d); [apply IH; fuel_lia | reflexivity].
Qed.

Lemma skipInterpolation_loop_ge (str : jsstring) :
  forall (fuel : nat) (i d : Z), i <= skipInterpolation_loop fuel str i d.
Proof.
  induction fuel as [|fuel IH]; intros i d; simpl; [lia|].
  destruct ((i <? Js.length str) && (0 <? d)); [|lia].
  match goal with |- _ <= skipInterpolation_loop _ _ _ ?d' =>
    specialize (IH (i + 1) d') end.
  lia.
Qed.

Lemma skipInterpolation_ge (str : jsstring) (i d : Z) :
  i <= skipInterpolation str i d.
Proof. apply skipInterpolation_loop_ge. Qed.

Lemma skipTemplate_loop_fuel (str : jsstring) :
  forall (f1 f2 : nat) (i : Z),
    (fuel_for str i <= f1)%nat -> (fuel_for str i <= f2)%nat ->
    skipTemplate_loop f1 str i = skipTemplate_loop f2 str i.
Proof.
  induction f1 as [|f1 IH]; intros [|f2] i H1 H2; simpl; try reflexivity;
    destruct (Z.ltb_spec i (Js.length str)) as [Hlt|Hge];
    try reflexivity; try fuel_lia.
  destruct (is_ch (get str i) backslash); [apply IH; fuel_lia|].
  destruct (is_ch (get str i) dollar && is_ch (get str (i + 1)) lbrace).
  - pose proof (skipInterpolation_ge str (i + 2) 1). apply IH; fuel_lia.
  - destruct (is_ch (get str i) backtick); [reflexivity | apply IH; fuel_lia].
Qed.

Lemma skipTemplate_loop_ge (str : jsstring) :
  forall (fuel : nat) (i : Z), i <= skipTemplate_loop fuel str i.
Proof.
  induction fuel as [|fuel IH]; intros i; simpl; [lia|].
  destruct (i <? Js.length str); [|lia].
  destruct (is_ch (get str i) backslash); [specialize (IH (i + 2)); lia|].
  destruct (is_ch (get str i) dollar && is_ch (get str (i + 1)) lbrace).
  - pose proof (skipInterpolation_ge str (i + 2) 1).
    specialize (IH (skipInterpolation str (i + 2) 1)). lia.
  - destruct (is_ch (get str i) backtick); [lia | specialize (IH (i + 1)); lia].
Qed.

Lemma skipTemplate_advances (str : jsstring) (pos : Z) : pos < skipTemplate str pos.
Proof.
  unfold skipTemplate, skipTemplate_from.
  pose proof (skipTemplate_loop_ge str (fuel_for str (pos + 1)) (pos + 1)).
  lia.
Qed.

Lemma findBalancedEnd_loop_fuel (str : jsstring) (open : option N) (close : N) :
  forall (f1 f2 : nat) (depth i : Z),
    (fuel_for str i <= f1)%nat -> (fuel_for str i <= f2)%nat ->
    findBalancedEnd_loop f1 str open close depth i
    = findBalancedEnd_loop f2 str open close depth i.
Proof.
  induction f1 as [|f1 IH]; intros [|f2] depth i H1 H2; simpl; try reflexivity;
    destruct (Z.ltb_spec i (Js.length str)) as [Hlt|Hge];
    try reflexivity; try fuel_lia.
  pose proof (skipQuoted_advances str i).
  pose proof (skipTemplate_advances str i).
  destruct (is_ch (get str i) dquote || is_ch (get str i) squote);
    [apply IH; fuel_lia|].
  destruct (is_ch (get str i) backtick); [apply IH; fuel_lia|].
  destruct (same_ch (get str i) open); [apply IH; fuel_lia|].
  destruct (is_ch (get str i) close); [|apply IH; fuel_lia].
  destruct (depth - 1 =? 0); [reflexivity | apply IH; fuel_lia].
Qed.

(** The equations of the scanner loops, free of fuel. *)

Lemma skipQuoted_from_eq (str : jsstring) (q : option N) (i : Z) :
  skipQuoted_from str q i =
  if i <? Js.length str then
    if is_ch (get str i) backslash then skipQuoted_from str q (i + 2)
    else if same_ch (get str i) q then i + 1
    else skipQuoted_from str q (i + 1)
  else i.
Proof.
  unfold skipQuoted_from. destruct (fuel_for str i) as [|f] eqn:Hf; simpl;
    destruct (Z.ltb_spec i (Js.length str)) as [Hlt|Hge];
    try reflexivity; try fuel_lia.
  destruct (is_ch (get str i) backslash);
    [apply skipQuoted_loop_fuel; fuel_lia|].
  destruct (same_ch (get str i) q);
    [reflexivity | apply skipQuoted_loop_fuel; fuel_lia].
Qed.

Lemma skipInterpolation_eq (str : jsstring) (i d : Z) :
  skipInterpolation str i d =
  if (i <? Js.length str) && (0 <? d) then
    skipInterpolation str (i + 1)
      (if is_ch (get str i) lbrace then d + 1
       else if is_ch (get str i) rbrace then d - 1
       else d)
  else i.
Proof.
  unfold skipInterpolation. destruct (fuel_for str i) as [|f] eqn:Hf; simpl;
    destruct (Z.ltb_spec i (Js.length str)) as [Hlt|Hge]; simpl;
    try reflexivity; try fuel_lia.
  destruct (0 <? d); [apply skipInterpolation_loop_fuel; fuel_lia | reflexivity].
Qed.

Lemma skipTemplate_from_eq (str : jsstring) (i : Z) :
  skipTemplate_from str i =
  if i <? Js.length str then
    if is_ch (get str i) backslash then skipTemplate_from str (i + 2)
    else if is_ch (get str i) dollar && is_ch (get str (i + 1)) lbrace then
      skipTemplate_from str (skipInterpolation str (i + 2) 1)
    else if is_ch (get str i) backtick then i + 1
    else skipTemplate_from str (i + 1)
  else i.
Proof.
  unfold skipTemplate_from. destruct (fuel_for str i) as [|f] eqn:Hf; simpl;
    destruct (Z.ltb_spec i (Js.length str)) as [Hlt|Hge];
    try reflexivity; try fuel_lia.
  destruct (is_ch (get str i) backslash);
    [apply skipTemplate_loop_fuel; fuel_lia|].
  destruct (is_ch (get str i) dollar && is_ch (get str (i + 1)) lbrace).
  - pose proof (skipInterpolation_ge str (i + 2) 1).
    apply skipTemplate_loop_fuel; fuel_lia.
  - destruct (is_ch (get str i) backtick);
      [reflexivity | apply skipTemplate_loop_fuel; fuel_lia].
Qed.

Lemma findBalancedEnd_from_eq (str : jsstring) (open : option N) (close : N)
    (depth i : Z) :
  findBalancedEnd_from str open close depth i =
  if i <? Js.length str then
    if is_ch (get str i) dquote || is_ch (get str i) squote then
      findBalancedEnd_from str open close depth (skipQuoted str i)
    else if is_ch (get str i) backtick then
      findBalancedEnd_from str open close depth (skipTemplate str i)
    else if same_ch (get str i) open then
      findBalancedEnd_from str open close (depth + 1) (i + 1)
    else if is_ch (get str i) close then
      if depth - 1 =? 0 then i
      else findBalancedEnd_from str open close (depth - 1) (i + 1)
    else findBalancedEnd_from str open close depth (i + 1)
  else -1.
Proof.
  unfold findBalancedEnd_from. destruct (fuel_for str i) as [|f] eqn:Hf; simpl;
    destruct (Z.ltb_spec i (Js.length str)) as [Hlt|Hge];
    try reflexivity; try fuel_lia.
  pose proof (skipQuoted_advances str i).
  pose proof (skipTemplate_advances str i).
  destruct (is_ch (get str i) dquote || is_ch (get str i) squote);
    [apply findBalancedEnd_loop_fuel; fuel_lia|].
  destruct (is_ch (get str i) backtick);
    [apply findBalancedEnd_loop_fuel; fuel_lia|].
  destruct (same_ch (get str i) open);
    [apply findBalancedEnd_loop_fuel; fuel_lia|].
  destruct (is_ch (get str i) close);
    [|apply findBalancedEnd_loop_fuel; fuel_lia].
  destruct (depth - 1 =? 0);
    [reflexivity | apply findBalancedEnd_loop_fuel; fuel_lia].
Qed.

(** ** Quoted strings *)

Lemma quoted_scan_fun (str : jsstring) (q : N) (i : Z) (e1 e2 : scan_end) :
  quoted_scan str q i e1 -> quoted_scan str q i e2 -> e1 = e2.
Proof.
  intros H1. revert e2.
  induction H1 as [i Hi | i e Hi Hc _ IH | i Hi Hc Hq | i c e Hi Hc Hb Hq _ IH];
    intros e2 H2; inversion H2; subst; try lia; try congruence; auto.
Qed.

Lemma skipQuoted_loop_scan (str : jsstring) (q : N) :
  q <> backslash ->
  forall (fuel : nat) (i : Z),
    0 <= i <= Js.length str + 1 ->
    (fuel_for str i <= fuel)%nat ->
    exists e,
      quoted_scan str q i e
      /\ skipQuoted_loop fuel str (Some q) i = offset e
      /\ match e with
         | Closed r => i + 1 <= r <= Js.length str /\ get str (r - 1) = Some q
         | Unterminated r => i <= r /\ Js.length str <= r <= Js.length str + 1
         end.
Proof.
  intros Hq. unfold fuel_for.
  induction fuel as [|fuel IH]; intros i Hi Hfuel.
  - exists (Unterminated i). simpl. split; [constructor; lia|]. split; [reflexivity | lia].
  - simpl. destruct (i <? Js.length str) eqn:Hlt.
    + apply Z.ltb_lt in Hlt.
      destruct (get_in_range str i) as [c Hc]; [lia|]. rewrite Hc. simpl.
      destruct (N.eqb_spec c backslash) as [->|Hnb].
      * destruct (IH (i + 2)) as [e [Hs [He Hb]]]; [lia | lia |].
        exists e. split; [eapply QS_escape; eauto|]. split; [exact He|].
        destruct e; [destruct Hb as [Hb1 Hb2]; split; [lia | exact Hb2] | lia].
      * destruct (N.eqb_spec c q) as [->|Hnq].
        -- exists (Closed (i + 1)). split; [apply QS_close; auto|].
           split; [reflexivity|]. split; [lia|].
           replace (i + 1 - 1) with i by lia. exact Hc.
        -- destruct (IH (i + 1)) as [e [Hs [He Hb]]]; [lia | lia |].
           exists e. split; [eapply QS_char; eauto|]. split; [exact He|].
           destruct e; [destruct Hb as [Hb1 Hb2]; split; [lia | exact Hb2] | lia].
    + apply Z.ltb_ge in Hlt.
      exists (Unterminated i). split; [constructor; lia|]. split; [reflexivity | lia].
Qed.

(** C8, as amended.  When [pos] holds a quote character [q], [skipQuoted]
    follows the scan of the contract (two characters per backslash, whatever
    the second one is) and returns either the offset just past the closing
    quote, which is within the buffer, or, when the string is unterminated,
    the offset where the scan ran off the buffer: the length of the buffer or
    one more. *)
Theorem skipQuoted_closing_or_end (str : jsstring) (pos : Z) (q : N) :
  get str pos = Some q ->
  q = dquote \/ q = squote ->
  exists e,
    quoted_scan str q (pos + 1) e
    /\ skipQuoted str pos = offset e
    /\ match e with
       | Closed r => pos + 2 <= r <= Js.length str /\ get str (r - 1) = Some q
       | Unterminated r => Js.length str <= r <= Js.length str + 1
       end.
Proof.
  intros Hpos Hq.
  assert (Hnb : q <> backslash) by (destruct Hq; subst; discriminate).
  apply get_Some_range in Hpos as Hrange.
  destruct (skipQuoted_loop_scan str q Hnb (fuel_for str (pos + 1)) (pos + 1))
    as [e [Hs [He Hb]]]; [lia | lia |].
  exists e. split; [exact Hs|]. split.
  - unfold skipQuoted, skipQuoted_from. rewrite Hpos. exact He.
  - destruct e; [destruct Hb as [Hb1 Hb2]; split; [lia | exact Hb2] | lia].
Qed.

Lemma skipQuoted_closing_or_end_witness :
  exists e,
    quoted_scan (lit "'a\'b' c") squote (0 + 1) e
    /\ skipQuoted (lit "'a\'b' c") 0 = offset e
    /\ match e with
       | Closed r =>
           0 + 2 <= r <= Js.length (lit "'a\'b' c")
           /\ get (lit "'a\'b' c") (r - 1) = Some squote
       | Unterminated r =>
           Js.length (lit "'a\'b' c") <= r <= Js.length (lit "'a\'b' c") + 1
       end.
Proof.
  apply (skipQuoted_closing_or_end (lit "'a\'b' c") 0 squote).
  - reflexivity.
  - right. reflexivity.
Defined.

(** C8, as stated, fails: on a quote followed by a lone backslash the
    returned offset is 3, one more than the length of the buffer. *)
Lemma skipQuoted_past_end :
  get dangling_escape 0 = Some squote
  /\ skipQuoted dangling_escape 0 = 3
  /\ ~ (skipQuoted dangling_escape 0 <= Js.length dangling_escape).
Proof.
  split; [reflexivity|]. split; [reflexivity|].
  vm_compute. intros H. apply H. reflexivity.
Qed.

(** ** The budget of the loops that may spin *)

Lemma extractProp_loop_mono (body name : jsstring) (r : option jsstring) :
  forall (fuel fuel' : nat) (i : Z),
    (fuel <= fuel')%nat ->
    extractProp_loop fuel body name i = Some r ->
    extractProp_loop fuel' body name i = Some r.
Proof.
  induction fuel as [|fuel IH]; intros fuel' i Hle H; [discriminate|].
  destruct fuel' as [|fuel']; [lia|].
  simpl in *. destruct (i <? Js.length body); [|exact H].
  destruct (extractProp_turn body name i); try exact H.
  apply IH; [lia | exact H].
Qed.

Lemma extractProp_mono (fuel fuel' : nat) (body name : jsstring) (r : option jsstring) :
  (fuel <= fuel')%nat ->
  extractProp fuel body name = Some r ->
  extractProp fuel' body name = Some r.
Proof. unfold extractProp. apply extractProp_loop_mono. Qed.

Lemma checkShape_mono (fuel fuel' : nat) (body : jsstring) (r : option shape) :
  (fuel <= fuel')%nat ->
  checkShape fuel body = Some r ->
  checkShape fuel' body = Some r.
Proof.
  intros Hle. unfold checkShape.
  destruct (includes body marker); [auto|].
  destruct (extractProp fuel body (lit "value")) as [v|] eqn:Hv; [|discriminate].
  destruct (extractProp fuel body (lit "targets")) as [t|] eqn:Ht; [|discriminate].
  destruct (extractProp fuel body (lit "message")) as [m|] eqn:Hm; [|discriminate].
  rewrite (extractProp_mono _ _ _ _ _ Hle Hv).
  rewrite (extractProp_mono _ _ _ _ _ Hle Ht).
  rewrite (extractProp_mono _ _ _ _ _ Hle Hm).
  auto.
Qed.

Lemma rewrite_loop_mono (n n' : nat) (content unit out : jsstring) :
  (n <= n')%nat ->
  forall (fuel fuel' : nat) (searchFrom : Z),
    (fuel <= fuel')%nat ->
    rewrite_loop n fuel content unit searchFrom = Some out ->
    rewrite_loop n' fuel' content unit searchFrom = Some out.
Proof.
  intros Hn. induction fuel as [|fuel IH]; intros fuel' sf Hle H; [discriminate|].
  destruct fuel' as [|fuel']; [lia|].
  simpl in *. destruct (sf <? Js.length content); [|exact H].
  destruct (locateElement content sf) as [|sf'|es ee]; [exact H | |].
  - apply IH; [lia | exact H].
  - destruct (checkShape n (substring content (es + 1) ee)) as [[p|]|] eqn:Hc;
      [| |discriminate]; rewrite (checkShape_mono _ _ _ _ Hn Hc).
    + exact H.
    + apply IH; [lia | exact H].
Qed.

(** A result obtained with some budget is the result with any larger one. *)
Lemma rewriteShippingDiscountOutput_mono (fuel fuel' : nat) (content out : jsstring) :
  (fuel <= fuel')%nat ->
  rewriteShippingDiscountOutput fuel content = Some out ->
  rewriteShippingDiscountOutput fuel' content = Some out.
Proof.
  intros Hle. unfold rewriteShippingDiscountOutput.
  destruct (includes content marker); [auto|].
  apply rewrite_loop_mono; assumption.
Qed.

(** A turn that leaves the cursor where it was repeats for ever. *)
Lemma extractProp_loop_stuck (body name : jsstring) (i : Z) :
  i < Js.length body ->
  extractProp_turn body name i = Next i ->
  forall fuel, extractProp_loop fuel body name i = None.
Proof.
  intros Hlt Hturn. apply Z.ltb_lt in Hlt.
  induction fuel as [|fuel IH]; [reflexivity|].
  simpl. rewrite Hlt, Hturn. exact IH.
Qed.

(** A turn that leads to a cursor from which the loop never returns. *)
Lemma extractProp_loop_doomed (body name : jsstring) (i i' : Z) :
  i < Js.length body ->
  extractProp_turn body name i = Next i' ->
  (forall fuel, extractProp_loop fuel body name i' = None) ->
  forall fuel, extractProp_loop fuel body name i = None.
Proof.
  intros Hlt Hturn Hnever. apply Z.ltb_lt in Hlt.
  destruct fuel as [|fuel]; [reflexivity|].
  simpl. rewrite Hlt, Hturn. apply Hnever.
Qed.

Lemma checkShape_spins (fuel : nat) (body : jsstring) :
  includes body marker = false ->
  extractProp fuel body (lit "value") = None ->
  checkShape fuel body = None.
Proof. intros Hm Hv. unfold checkShape. now rewrite Hm, Hv. Qed.

Lemma rewrite_loop_spins (n fuel : nat) (content unit : jsstring) (sf es ee : Z) :
  sf < Js.length content ->
  locateElement content sf = Candidate es ee ->
  checkShape n (substring content (es + 1) ee) = None ->
  rewrite_loop n fuel content unit sf = None.
Proof.
  intros Hlt Hloc Hshape. apply Z.ltb_lt in Hlt.
  destruct fuel as [|fuel]; [reflexivity|].
  simpl. now rewrite Hlt, Hloc, Hshape.
Qed.

(** ** Driver *)

Lemma marker_in_newElem (elemIndent unit : jsstring) (p : shape) :
  occurs marker (newElem elemIndent unit p).
Proof.
  unfold newElem. cbv zeta.
  do 4 apply occurs_app_r. apply occurs_app_l.
  exists [], (lit ": {"). reflexivity.
Qed.

Lemma marker_in_splice (content unit : jsstring) (es ee : Z) (p : shape) :
  occurs marker (splice content unit es ee p).
Proof.
  unfold splice. cbv zeta.
  apply occurs_app_r, occurs_app_l, marker_in_newElem.
Qed.

(** Whatever the loop returns is the input or the splice at an accepted
    element. *)
Lemma rewrite_loop_result (n : nat) (content unit out : jsstring) :
  forall (fuel : nat) (sf : Z),
    rewrite_loop n fuel content unit sf = Some out ->
    out = content
    \/ exists es ee p,
         accepted n content es ee p /\ out = splice content unit es ee p.
Proof.
  induction fuel as [|fuel IH]; intros sf H; [discriminate|].
  simpl in H. destruct (sf <? Js.length content); [|left; congruence].
  destruct (locateElement content sf) as [|sf'|es ee] eqn:Hloc.
  - left. congruence.
  - eauto.
  - destruct (checkShape n (substring content (es + 1) ee)) as [[p|]|] eqn:Hc.
    + right. exists es, ee, p. split; [exists sf; auto | congruence].
    + eauto.
    + discriminate.
Qed.

(** Frame of the rewrite: when the driver changes its input, the output is
    the text before the start of the line of the accepted element, the
    assembled block indented by the leading white space of that line, and
    the text after the closing brace of the element. *)
Lemma rewrite_frame (fuel : nat) (content out : jsstring) :
  rewriteShippingDiscountOutput fuel content = Some out ->
  out = content
  \/ exists es ee p,
       accepted fuel content es ee p
       /\ out =
          substring content 0 (lineStart content es)
          ++ newElem
               (leading_space (substring content (lineStart content es) es))
               (detectIndentUnit content) p
          ++ substring_from content (ee + 1).
Proof.
  unfold rewriteShippingDiscountOutput.
  destruct (includes content marker); [left; congruence|].
  intros H. apply rewrite_loop_result in H. exact H.
Qed.

Lemma lineStart_loop_range (content : jsstring) :
  forall (fuel : nat) (ls : Z), 0 <= ls -> 0 <= lineStart_loop fuel content ls <= ls.
Proof.
  induction fuel as [|fuel IH]; intros ls Hls; simpl; [lia|].
  destruct (Z.ltb_spec 0 ls) as [Hpos|Hz]; simpl; [|lia].
  destruct (negb (is_ch (get content (ls - 1)) newline)); [|lia].
  specialize (IH (ls - 1)). lia.
Qed.

Lemma lineStart_range (content : jsstring) (es : Z) :
  0 <= es -> 0 <= lineStart content es <= es.
Proof. apply lineStart_loop_range. Qed.

Lemma findElemStart_loop_found (content : jsstring) :
  forall (fuel : nat) (i : Z),
    findElemStart_loop fuel content i <> -1 ->
    get content (findElemStart_loop fuel content i) = Some lbrace.
Proof.
  induction fuel as [|fuel IH]; intros i; simpl; [congruence|].
  destruct (i <? Js.length content); [|congruence].
  destruct (get content i) as [c|] eqn:Hc; simpl.
  - destruct (N.eqb_spec c lbrace) as [->|_]; [intros _; exact Hc|].
    destruct (N.eqb c rbrack); [congruence|].
    destruct (is_space c); simpl; [apply IH | congruence].
  - congruence.
Qed.

Lemma candidate_is_brace (content : jsstring) (sf es ee : Z) :
  locateElement content sf = Candidate es ee ->
  get content es = Some lbrace.
Proof.
  unfold locateElement.
  destruct (indexOf content anchor sf =? -1); [discriminate|].
  destruct (negb (is_ch (get content _) lbrack)); [discriminate|].
  match goal with |- context [findElemStart content ?b] =>
    destruct (Z.eqb_spec (findElemStart content b) (-1)) as [|Hne];
      [discriminate|];
    destruct (findBalancedEnd content (findElemStart content b) =? -1);
      [discriminate|];
    intros H; injection H as <- _;
    apply findElemStart_loop_found; exact Hne
  end.
Qed.

Lemma firstn_plus (n m : nat) (l : jsstring) :
  firstn n l ++ firstn m (skipn n l) = firstn (n + m) l.
Proof.
  rewrite firstn_skipn_comm.
  rewrite <- (firstn_skipn n (firstn (n + m) l)) at 2.
  f_equal. rewrite firstn_firstn. f_equal. lia.
Qed.




(** ** Balanced delimiters in text without strings or templates *)

Lemma get_middle (done rest : jsstring) (c : N) :
  get (done ++ c :: rest) (Js.length done) = Some c.
Proof.
  unfold get, Js.length.
  destruct (Z.ltb_spec (Z.of_nat (List.length done)) 0) as [H|_]; [lia|].
  rewrite Nat2Z.id, nth_error_app2 by lia.
  now rewrite Nat.sub_diag.
Qed.

Lemma net_app (open close : N) (a b : jsstring) :
  net open close (a ++ b) = net open close a + net open close b.
Proof. induction a as [|c a IH]; simpl; [reflexivity | rewrite IH; lia]. Qed.

(** From a positive depth, the loop stops at the first closer that brings
    the depth back to zero. *)
Lemma findBalancedEnd_from_plain (open close : N) (post : jsstring) :
  open <> close ->
  forall (seg done : jsstring) (d : Z) (j : nat),
    0 < d ->
    (j < List.length seg)%nat ->
    plain (firstn (S j) seg) = true ->
    d + net open close (firstn (S j) seg) = 0 ->
    (forall j', (j' < j)%nat -> 0 < d + net open close (firstn (S j') seg)) ->
    findBalancedEnd_from (done ++ seg ++ post) (Some open) close d (Js.length done)
    = Js.length done + Z.of_nat j.
Proof.
  intros Hoc. induction seg as [|c seg IH]; intros done d j Hd Hj Hplain Hzero Hpos;
    [simpl in Hj; lia|].
  rewrite findBalancedEnd_from_eq.
  assert (Hlt : Js.length done < Js.length (done ++ (c :: seg) ++ post)).
  { rewrite !length_app. unfold Js.length at 3. simpl List.length.
    pose proof (length_nonneg post). lia. }
  apply Z.ltb_lt in Hlt. rewrite Hlt. clear Hlt.
  change ((c :: seg) ++ post) with (c :: seg ++ post). rewrite get_middle.
  change (plain (firstn (S j) (c :: seg)))
    with (negb (N.eqb c dquote || N.eqb c squote || N.eqb c backtick)
          && plain (firstn j seg)) in Hplain.
  apply andb_true_iff in Hplain as [Hc Hplain].
  apply negb_true_iff in Hc.
  apply orb_false_iff in Hc as [Hc Hbt]. apply orb_false_iff in Hc as [Hdq Hsq].
  unfold is_ch, same_ch. rewrite Hdq, Hsq, Hbt. simpl orb. cbv iota.
  change (d + (bracket_step open close c + net open close (firstn j seg)) = 0)
    in Hzero.
  assert (Hpos' : forall j', (j' < j)%nat ->
            0 < d + (bracket_step open close c + net open close (firstn j' seg)))
    by exact Hpos.
  clear Hpos.
  assert (Hnext : forall d',
    d' = d + bracket_step open close c -> (0 < j)%nat ->
    findBalancedEnd_from (done ++ c :: seg ++ post) (Some open) close d'
      (Js.length done + 1)
    = Js.length done + Z.of_nat j).
  { intros d' Hd' Hj0. destruct j as [|j]; [lia|].
    replace (done ++ c :: seg ++ post) with ((done ++ [c]) ++ seg ++ post)
      by (rewrite <- app_assoc; reflexivity).
    replace (Js.length done + 1) with (Js.length (done ++ [c]))
      by (rewrite length_app; reflexivity).
    rewrite (IH (done ++ [c]) d' j).
    - rewrite length_app. unfold Js.length at 2. simpl List.length. lia.
    - specialize (Hpos' 0%nat ltac:(lia)). simpl in Hpos'. lia.
    - simpl in Hj. lia.
    - exact Hplain.
    - lia.
    - intros j' Hj'. specialize (Hpos' (S j') ltac:(lia)). lia. }
  assert (Hlast : j = 0%nat -> d + bracket_step open close c = 0).
  { intros ->. simpl in Hzero. lia. }
  assert (Hfirst : (0 < j)%nat -> 0 < d + bracket_step open close c).
  { intros Hj0. specialize (Hpos' 0%nat Hj0). simpl in Hpos'. lia. }
  unfold bracket_step in Hnext, Hlast, Hfirst.
  destruct (N.eqb_spec c open) as [->|Hno].
  - apply Hnext; [reflexivity|]. destruct j; [specialize (Hlast eq_refl); lia | lia].
  - destruct (N.eqb_spec c close) as [->|Hnc].
    + destruct (Z.eqb_spec (d - 1) 0) as [Hz|Hnz].
      * destruct j as [|j]; [lia|]. specialize (Hfirst ltac:(lia)). lia.
      * apply Hnext; [lia|]. destruct j; [specialize (Hlast eq_refl); lia | lia].
    + apply Hnext; [lia|]. destruct j; [specialize (Hlast eq_refl); lia | lia].
Qed.

(** X2: The first testable property of the scanner: in a text
    [pre ++ open :: mid ++ close :: post] whose [mid] is balanced and holds
    no quote and no backtick, [findBalancedEnd] called on the opener returns
    the offset of that closer. *)
Lemma findBalancedEnd_plain (open close : N) (pre mid post : jsstring) :
  (open = lbrace /\ close = rbrace) \/ (open = lbrack /\ close = rbrack) ->
  plain mid = true ->
  balanced open close mid ->
  findBalancedEnd (pre ++ open :: mid ++ close :: post) (Js.length pre)
  = Js.length pre + 1 + Js.length mid.
Proof.
  intros Hkind Hplain [Hnet Hpre].
  assert (Hoc : open <> close) by (destruct Hkind as [[-> ->]|[-> ->]]; discriminate).
  assert (Hquote : is_ch (Some open) dquote || is_ch (Some open) squote = false
                   /\ is_ch (Some open) backtick = false
                   /\ plain [close] = true)
    by (destruct Hkind as [[-> ->]|[-> ->]]; repeat split; reflexivity).
  destruct Hquote as [Hq [Hbt Hpc]].
  assert (Hclose : (if is_ch (Some open) lbrace then rbrace else rbrack) = close)
    by (destruct Hkind as [[-> ->]|[-> ->]]; reflexivity).
  unfold findBalancedEnd. rewrite get_middle. cbv zeta. rewrite Hclose.
  rewrite findBalancedEnd_from_eq.
  assert (Hlt : Js.length pre < Js.length (pre ++ open :: mid ++ close :: post)).
  { rewrite length_app. unfold Js.length at 3. simpl List.length. lia. }
  apply Z.ltb_lt in Hlt. rewrite Hlt. clear Hlt.
  rewrite get_middle, Hq, Hbt. unfold same_ch. rewrite N.eqb_refl.
  replace (pre ++ open :: mid ++ close :: post)
    with ((pre ++ [open]) ++ (mid ++ [close]) ++ post)
    by (rewrite <- !app_assoc; reflexivity).
  replace (Js.length pre + 1) with (Js.length (pre ++ [open]))
    by (rewrite length_app; reflexivity).
  assert (Hwhole : firstn (S (List.length mid)) (mid ++ [close]) = mid ++ [close]).
  { apply firstn_all2. rewrite List.length_app. simpl. lia. }
  rewrite (findBalancedEnd_from_plain open close post Hoc
             (mid ++ [close]) (pre ++ [open]) (0 + 1) (List.length mid)).
  - rewrite length_app. unfold Js.length. simpl List.length. lia.
  - lia.
  - rewrite List.length_app. simpl. lia.
  - rewrite Hwhole. unfold plain in *. rewrite forallb_app, Hplain. exact Hpc.
  - rewrite Hwhole, net_app, Hnet. simpl. unfold bracket_step.
    rewrite (proj2 (N.eqb_neq close open)), N.eqb_refl by congruence. reflexivity.
  - intros j' Hj'. rewrite firstn_app.
    replace (S j' - List.length mid)%nat with 0%nat by lia.
    simpl firstn at 2. rewrite app_nil_r.
    specialize (Hpre (S j')). lia.
Qed.

(** ** The driver on the documented examples *)

(** C1: the claim fails on the code.  On the README example the driver
    accepts the element that starts at offset 24, and the text in front of
    it on its line, [operations: [], is not copied to the output: the first
    24 characters of the output differ from those of the input, and the
    output no longer holds the anchor keyword at all. *)
Theorem splice_drops_line_prefix :
  locateElement readme_before 0 = Candidate 24 156
  /\ rewriteShippingDiscountOutput 7 readme_before = Some readme_rewritten
  /\ substring readme_before 0 24 = lit "return {" ++ [newline] ++ lit "  operations: ["
  /\ substring readme_rewritten 0 24 <> substring readme_before 0 24
  /\ includes readme_before anchor = true
  /\ includes readme_rewritten anchor = false.
Proof.
  split; [vm_compute; reflexivity|].
  split; [vm_compute; reflexivity|].
  split; [vm_compute; reflexivity|].
  split; [vm_compute; discriminate|].
  split; vm_compute; reflexivity.
Qed.

(** C2: on the end-to-end scenario the three property texts are extracted
    as they stand in the input, the driver returns the [deliveryDiscountsAdd]
    wrapper with [selectionStrategy: "ALL"] and a one-element [candidates]
    list holding those three texts followed by
    [associatedDiscountCode: null], and the driver applied to that output
    returns it unchanged. *)
Theorem end_to_end_scenario (fuel : nat) :
  (7 <= fuel)%nat ->
  checkShape fuel (substring scenario_input 23 138)
  = Some (Some (mkShape scenario_value scenario_targets scenario_message))
  /\ rewriteShippingDiscountOutput fuel scenario_input = Some scenario_output
  /\ rewriteShippingDiscountOutput fuel scenario_output = Some scenario_output.
Proof.
  intros Hfuel. split; [|split].
  - apply (checkShape_mono 7); [exact Hfuel | vm_compute; reflexivity].
  - apply (rewriteShippingDiscountOutput_mono 7); [exact Hfuel | vm_compute; reflexivity].
  - apply (rewriteShippingDiscountOutput_mono 0); [lia | vm_compute; reflexivity].
Qed.

Lemma end_to_end_scenario_witness :
  checkShape 7 (substring scenario_input 23 138)
  = Some (Some (mkShape scenario_value scenario_targets scenario_message))
  /\ rewriteShippingDiscountOutput 7 scenario_input = Some scenario_output
  /\ rewriteShippingDiscountOutput 7 scenario_output = Some scenario_output.
Proof. apply (end_to_end_scenario 7). lia. Defined.

(** X22: whenever the driver returns, applying it to what it returned gives
    the same string again: the result is the input itself, or it holds the
    marker that [newElem] writes and the guard returns it as it is. *)
Theorem rewrite_idempotent (fuel : nat) (s out : jsstring) :
  rewriteShippingDiscountOutput fuel s = Some out ->
  rewriteShippingDiscountOutput fuel out = Some out.
Proof.
  intros H. pose proof H as Hrun. revert H.
  unfold rewriteShippingDiscountOutput at 1.
  destruct (includes s marker) eqn:Hm.
  - intros H. injection H as <-. exact Hrun.
  - intros H. apply rewrite_loop_result in H as [->|[es [ee [p [_ ->]]]]].
    + exact Hrun.
    + unfold rewriteShippingDiscountOutput.
      replace (includes (splice s (detectIndentUnit s) es ee p) marker) with true;
        [reflexivity|].
      symmetry. apply includes_occurs, marker_in_splice.
Qed.

Lemma rewrite_idempotent_witness :
  rewriteShippingDiscountOutput 7 scenario_output = Some scenario_output.
Proof.
  apply (rewrite_idempotent 7 scenario_input scenario_output).
  vm_compute. reflexivity.
Defined.

(** C3: the claim fails on the code.  The claim is made for every input
    string, and on some strings the first application has no result to
    apply the driver to again.  [stray_bracket_file] and the well-formed
    [bracket_comment_file] do not hold the marker, the driver reaches
    [extractProp] on the body of their first element and that loop never
    moves on: no budget gives a first result, so no budget gives a first
    and a second result that agree. *)
Theorem idempotence_lacks_a_result :
  includes stray_bracket_file marker = false
  /\ includes bracket_comment_file marker = false
  /\ (forall fuel, rewriteShippingDiscountOutput fuel stray_bracket_file = None)
  /\ (forall fuel, rewriteShippingDiscountOutput fuel bracket_comment_file = None)
  /\ (forall fuel out,
        ~ (rewriteShippingDiscountOutput fuel stray_bracket_file = Some out
           /\ rewriteShippingDiscountOutput fuel out = Some out))
  /\ (forall fuel out,
        ~ (rewriteShippingDiscountOutput fuel bracket_comment_file = Some out
           /\ rewriteShippingDiscountOutput fuel out = Some out)).
Proof.
  assert (Hstray : forall fuel,
             rewriteShippingDiscountOutput fuel stray_bracket_file = None).
  { intros fuel. unfold rewriteShippingDiscountOutput.
    replace (includes stray_bracket_file marker) with false
      by (vm_compute; reflexivity).
    apply (rewrite_loop_spins _ _ _ _ 0 13 17);
      [vm_compute; reflexivity | vm_compute; reflexivity |].
    apply checkShape_spins; [vm_compute; reflexivity|].
    replace (substring stray_bracket_file (13 + 1) 17) with (lit " [ ")
      by (vm_compute; reflexivity).
    apply extractProp_loop_stuck; vm_compute; reflexivity. }
  assert (Hcomment : forall fuel,
             rewriteShippingDiscountOutput fuel bracket_comment_file = None).
  { intros fuel. unfold rewriteShippingDiscountOutput.
    replace (includes bracket_comment_file marker) with false
      by (vm_compute; reflexivity).
    apply (rewrite_loop_spins _ _ _ _ 0 22 67);
      [vm_compute; reflexivity | vm_compute; reflexivity |].
    apply checkShape_spins; [vm_compute; reflexivity|].
    unfold extractProp.
    apply (extractProp_loop_doomed _ _ 0 3); [vm_compute; reflexivity.. |].
    apply (extractProp_loop_doomed _ _ 3 4); [vm_compute; reflexivity.. |].
    apply extractProp_loop_stuck; vm_compute; reflexivity. }
  split; [vm_compute; reflexivity|].
  split; [vm_compute; reflexivity|].
  split; [exact Hstray|]. split; [exact Hcomment|].
  split; intros fuel out [H _].
  - rewrite Hstray in H. discriminate H.
  - rewrite Hcomment in H. discriminate H.
Qed.

(** ** Termination *)

(** C4: the claim fails on the code.  On the body made of one opening
    brace [findBalancedEnd] answers [-1], [extractProp] adds one and
    resumes at offset 0, so every turn of its loop starts where the one
    before started and no budget lets it return; the driver meets the same
    loop on a file whose first element holds a stray bracket.  A closing
    bracket at depth zero of the body stalls the loop as well: the driver
    does not return on the well-formed [bracket_comment_file]. *)
Theorem extractProp_spins_on_unbalanced_body :
  findBalancedEnd (lit "{") 0 = -1
  /\ extractProp_turn (lit "{") (lit "value") 0 = Next 0
  /\ (forall fuel, extractProp fuel (lit "{") (lit "value") = None)
  /\ (forall fuel, rewriteShippingDiscountOutput fuel stray_bracket_file = None)
  /\ (forall fuel, rewriteShippingDiscountOutput fuel bracket_comment_file = None).
Proof.
  split; [vm_compute; reflexivity|].
  split; [vm_compute; reflexivity|].
  split; [|split].
  - intros fuel. apply extractProp_loop_stuck; vm_compute; reflexivity.
  - intros fuel. unfold rewriteShippingDiscountOutput.
    replace (includes stray_bracket_file marker) with false
      by (vm_compute; reflexivity).
    apply (rewrite_loop_spins _ _ _ _ 0 13 17);
      [vm_compute; reflexivity | vm_compute; reflexivity |].
    apply checkShape_spins; [vm_compute; reflexivity|].
    replace (substring stray_bracket_file (13 + 1) 17) with (lit " [ ")
      by (vm_compute; reflexivity).
    apply extractProp_loop_stuck; vm_compute; reflexivity.
  - intros fuel. unfold rewriteShippingDiscountOutput.
    replace (includes bracket_comment_file marker) with false
      by (vm_compute; reflexivity).
    apply (rewrite_loop_spins _ _ _ _ 0 22 67);
      [vm_compute; reflexivity | vm_compute; reflexivity |].
    apply checkShape_spins; [vm_compute; reflexivity|].
    unfold extractProp.
    apply (extractProp_loop_doomed _ _ 0 3); [vm_compute; reflexivity.. |].
    apply (extractProp_loop_doomed _ _ 3 4); [vm_compute; reflexivity.. |].
    apply extractProp_loop_stuck; vm_compute; reflexivity.
Qed.

(** ** Templates and what depends on them *)

(** C5: the claim fails on the code.  In the template literal whose
    interpolation is the string literal made of a closing brace and a
    backtick, the brace inside the string ends the interpolation and the
    backtick inside the string is taken for the end of the template:
    [skipTemplate] returns 6, while the closing backtick is at offset 8 and
    the scan of the contract returns 9. *)
Theorem skipTemplate_stops_inside_interpolation :
  get tricky_template 0 = Some backtick
  /\ substring tricky_template 3 7 = lit "'}`'"
  /\ Js.length tricky_template = 9
  /\ skipTemplate tricky_template 0 = 6
  /\ spec_skipTemplate tricky_template 0 = 9.
Proof. repeat split; vm_compute; reflexivity. Qed.

(** C6: the claim fails on the code.  In [nested_body] the property
    [value] occurs at depth zero with the text [2] and inside the child
    object [a] with the text [1]; [extractProp] returns the nested
    occurrence, with the closing brace of the child appended. *)
Theorem extractProp_returns_nested_value (fuel : nat) :
  (6 <= fuel)%nat ->
  nested_body = lit "a: " ++ nested_child ++ lit ", value: 2"
  /\ findBalancedEnd nested_body 3 = 22
  /\ spec_findBalancedEnd nested_body 3 = 37
  /\ extractProp fuel nested_body (lit "value") = Some (Some (lit "1 }")).
Proof.
  intros Hfuel. split; [reflexivity|].
  split; [vm_compute; reflexivity|].
  split; [vm_compute; reflexivity|].
  apply (extractProp_mono 6); [exact Hfuel | vm_compute; reflexivity].
Qed.

Lemma extractProp_returns_nested_value_witness :
  nested_body = lit "a: " ++ nested_child ++ lit ", value: 2"
  /\ findBalancedEnd nested_body 3 = 22
  /\ spec_findBalancedEnd nested_body 3 = 37
  /\ extractProp 6 nested_body (lit "value") = Some (Some (lit "1 }")).
Proof. apply (extractProp_returns_nested_value 6). lia. Defined.

(** C7: the claim fails on the code.  The brace at offset 0 of
    [tricky_object] is closed by the brace at offset 10 and the text in
    between is one template literal, yet [findBalancedEnd] answers [-1]. *)
Theorem findBalancedEnd_misses_closer :
  tricky_object = lit "{" ++ tricky_template ++ lit "}"
  /\ get tricky_object 0 = Some lbrace
  /\ get tricky_object 10 = Some rbrace
  /\ findBalancedEnd tricky_object 0 = -1
  /\ spec_findBalancedEnd tricky_object 0 = 10.
Proof. repeat split; vm_compute; reflexivity. Qed.

(** ** Guards of the driver *)

(** C9: on a string in which the anchor keyword does not occur the driver
    returns its input, within one turn of its loop. *)
Theorem no_anchor_unchanged (fuel : nat) (content : jsstring) :
  ~ occurs anchor content ->
  rewriteShippingDiscountOutput (S fuel) content = Some content.
Proof.
  intros Hno. unfold rewriteShippingDiscountOutput.
  destruct (includes content marker); [reflexivity|].
  cbn [rewrite_loop].
  destruct (0 <? Js.length content); [|reflexivity].
  unfold locateElement. rewrite (not_occurs_indexOf _ _ Hno). reflexivity.
Qed.

Lemma no_anchor_unchanged_witness :
  rewriteShippingDiscountOutput 1 plain_file = Some plain_file.
Proof.
  apply (no_anchor_unchanged 0 plain_file).
  intros H. apply includes_occurs in H. vm_compute in H. discriminate H.
Defined.

(** C10: on a string in which the marker occurs anywhere the driver returns
    its input, whatever else the string holds and with any budget. *)
Theorem marker_anywhere_unchanged (fuel : nat) (content : jsstring) :
  occurs marker content ->
  rewriteShippingDiscountOutput fuel content = Some content.
Proof.
  intros H. apply includes_occurs in H.
  unfold rewriteShippingDiscountOutput. now rewrite H.
Qed.

Lemma marker_anywhere_unchanged_witness :
  rewriteShippingDiscountOutput 7 commented_file = Some commented_file.
Proof.
  apply (marker_anywhere_unchanged 7 commented_file).
  exists (lit "// "), ([newline] ++ scenario_input). reflexivity.
Defined.

(** * Further properties of the engine *)

(** ** What the scanner returns *)

Lemma findBalancedEnd_loop_result (str : jsstring) (open : option N) (close : N) :
  forall (fuel : nat) (depth i : Z),
    findBalancedEnd_loop fuel str open close depth i <> -1 ->
    i <= findBalancedEnd_loop fuel str open close depth i
    /\ get str (findBalancedEnd_loop fuel str open close depth i) = Some close.
Proof.
  induction fuel as [|fuel IH]; intros depth i; simpl; [congruence|].
  destruct (i <? Js.length str); [|congruence].
  pose proof (skipQuoted_advances str i) as Hq.
  pose proof (skipTemplate_advances str i) as Ht.
  destruct (is_ch (get str i) dquote || is_ch (get str i) squote).
  { intros H. destruct (IH _ _ H). split; [lia | assumption]. }
  destruct (is_ch (get str i) backtick).
  { intros H. destruct (IH _ _ H). split; [lia | assumption]. }
  destruct (same_ch (get str i) open).
  { intros H. destruct (IH _ _ H). split; [lia | assumption]. }
  destruct (is_ch (get str i) close) eqn:Hc.
  - destruct (depth - 1 =? 0).
    + intros _. split; [lia|].
      unfold is_ch in Hc. destruct (get str i) as [c|]; [|discriminate].
      apply N.eqb_eq in Hc. now subst.
    + intros H. destruct (IH _ _ H). split; [lia | assumption].
  - intros H. destruct (IH _ _ H). split; [lia | assumption].
Qed.

Lemma findBalancedEnd_found (str : jsstring) (pos : Z) :
  findBalancedEnd str pos <> -1 ->
  pos <= findBalancedEnd str pos < Js.length str
  /\ get str (findBalancedEnd str pos)
     = Some (if is_ch (get str pos) lbrace then rbrace else rbrack)
  /\ (is_ch (get str pos) lbrace || is_ch (get str pos) lbrack = true ->
      pos < findBalancedEnd str pos).
Proof.
  intros Hfound.
  assert (Hres := Hfound). unfold findBalancedEnd, findBalancedEnd_from in Hres.
  cbv zeta in Hres. apply findBalancedEnd_loop_result in Hres as [Hge Hget].
  fold (findBalancedEnd_from str (get str pos)
          (if is_ch (get str pos) lbrace then rbrace else rbrack) 0 pos) in Hge, Hget.
  change (findBalancedEnd_from str (get str pos)
            (if is_ch (get str pos) lbrace then rbrace else rbrack) 0 pos)
    with (findBalancedEnd str pos) in Hge, Hget.
  pose proof (get_Some_range _ _ _ Hget) as Hrange.
  split; [lia|]. split; [exact Hget|].
  intros Hopen. revert Hfound.
  unfold findBalancedEnd. cbv zeta. rewrite findBalancedEnd_from_eq.
  destruct (pos <? Js.length str); [|congruence].
  destruct (get str pos) as [c|] eqn:Hc; [|discriminate].
  unfold is_ch in Hopen |- *. unfold same_ch. rewrite N.eqb_refl.
  assert (Hnq : (c =? dquote)%N || (c =? squote)%N = false
                /\ (c =? backtick)%N = false).
  { apply orb_true_iff in Hopen as [H|H]; apply N.eqb_eq in H; subst c;
      split; reflexivity. }
  destruct Hnq as [-> ->].
  intros H. apply findBalancedEnd_loop_result in H as [H _].
  unfold findBalancedEnd_from. lia.
Qed.

(** X1: [findBalancedEnd] answers [-1] or the offset of a closer of the kind
    picked from the character at [pos], at or after [pos] and inside the
    buffer; when [pos] holds an opening brace or bracket the offset is
    after [pos], so the text between the two is a well-ordered range. *)
Theorem findBalancedEnd_closer (str : jsstring) (pos : Z) :
  findBalancedEnd str pos <> -1 ->
  pos <= findBalancedEnd str pos < Js.length str
  /\ get str (findBalancedEnd str pos)
     = Some (if is_ch (get str pos) lbrace then rbrace else rbrack)
  /\ (is_ch (get str pos) lbrace || is_ch (get str pos) lbrack = true ->
      pos < findBalancedEnd str pos).
Proof. apply findBalancedEnd_found. Qed.

Lemma findBalancedEnd_closer_witness :
  0 <= findBalancedEnd (lit "[{ a: ']' }] x") 0 < Js.length (lit "[{ a: ']' }] x")
  /\ get (lit "[{ a: ']' }] x") (findBalancedEnd (lit "[{ a: ']' }] x") 0)
     = Some (if is_ch (get (lit "[{ a: ']' }] x") 0) lbrace then rbrace else rbrack)
  /\ (is_ch (get (lit "[{ a: ']' }] x") 0) lbrace
      || is_ch (get (lit "[{ a: ']' }] x") 0) lbrack = true ->
      0 < findBalancedEnd (lit "[{ a: ']' }] x") 0).
Proof.
  apply (findBalancedEnd_closer (lit "[{ a: ']' }] x") 0).
  vm_compute. discriminate.
Defined.

Lemma skipInterpolation_loop_le (str : jsstring) :
  forall (fuel : nat) (i d : Z),
    skipInterpolation_loop fuel str i d <= Z.max i (Js.length str).
Proof.
  induction fuel as [|fuel IH]; intros i d; simpl; [lia|].
  destruct (Z.ltb_spec i (Js.length str)) as [Hlt|Hge]; simpl; [|lia].
  destruct (0 <? d); [|lia].
  match goal with |- skipInterpolation_loop _ _ _ ?d' <= _ =>
    specialize (IH (i + 1) d') end.
  lia.
Qed.

Lemma skipTemplate_loop_result (str : jsstring) :
  forall (fuel : nat) (i : Z),
    (fuel_for str i <= fuel)%nat ->
    skipTemplate_loop fuel str i <= Z.max i (Js.length str + 1)
    /\ (skipTemplate_loop fuel str i < Js.length str ->
        get str (skipTemplate_loop fuel str i - 1) = Some backtick).
Proof.
  induction fuel as [|fuel IH]; intros i Hfuel; simpl; [split; fuel_lia|].
  destruct (Z.ltb_spec i (Js.length str)) as [Hlt|Hge]; [|split; lia].
  destruct (is_ch (get str i) backslash).
  { destruct (IH (i + 2)) as [Hle Hbt]; [fuel_lia|]. split; [lia | exact Hbt]. }
  destruct (is_ch (get str i) dollar && is_ch (get str (i + 1)) lbrace).
  { pose proof (skipInterpolation_ge str (i + 2) 1) as Hge.
    pose proof (skipInterpolation_loop_le str (fuel_for str (i + 2)) (i + 2) 1) as Hle'.
    fold (skipInterpolation str (i + 2) 1) in Hle'.
    destruct (IH (skipInterpolation str (i + 2) 1)) as [Hle Hbt]; [fuel_lia|].
    split; [lia | exact Hbt]. }
  destruct (is_ch (get str i) backtick) eqn:Hc.
  - split; [lia|]. intros _. replace (i + 1 - 1) with i by lia.
    unfold is_ch in Hc. destruct (get str i) as [c|]; [|discriminate].
    apply N.eqb_eq in Hc. now subst.
  - destruct (IH (i + 1)) as [Hle Hbt]; [fuel_lia|]. split; [lia | exact Hbt].
Qed.

(** X3: for an offset [pos] inside the buffer or at its end, in a buffer
    shorter than 2^53 characters (the range in which the offsets of the
    source are exact integers), [skipTemplate] moves past [pos] and never
    further than one past the end of the buffer; when it stops inside the
    buffer, the character just before the returned offset is a backtick. *)
Theorem skipTemplate_result (str : jsstring) (pos : Z) :
  0 <= pos <= Js.length str ->
  Js.length str < 2 ^ 53 ->
  pos < skipTemplate str pos <= Js.length str + 1
  /\ (skipTemplate str pos < Js.length str ->
      get str (skipTemplate str pos - 1) = Some backtick).
Proof.
  intros Hpos _.
  pose proof (skipTemplate_loop_ge str (fuel_for str (pos + 1)) (pos + 1)) as Hge.
  destruct (skipTemplate_loop_result str (fuel_for str (pos + 1)) (pos + 1))
    as [Hle Hbt]; [lia|].
  unfold skipTemplate, skipTemplate_from. split; [lia | exact Hbt].
Qed.

Lemma skipTemplate_result_witness :
  0 < skipTemplate tricky_template 0 <= Js.length tricky_template + 1
  /\ (skipTemplate tricky_template 0 < Js.length tricky_template ->
      get tricky_template (skipTemplate tricky_template 0 - 1) = Some backtick).
Proof.
  apply (skipTemplate_result tricky_template 0).
  - vm_compute. split; discriminate.
  - vm_compute. reflexivity.
Defined.

(** ** Pieces of a string *)

Lemma str_eqb_eq (a b : jsstring) : str_eqb a b = true -> a = b.
Proof.
  revert b. induction a as [|x a IH]; intros [|y b]; simpl; try discriminate;
    [reflexivity|].
  intros H. apply andb_true_iff in H as [Hx Hab].
  apply N.eqb_eq in Hx. subst. f_equal. auto.
Qed.

Lemma occurs_substring (s : jsstring) (a b : Z) : occurs (substring s a b) s.
Proof.
  unfold substring. cbv zeta.
  set (from := Z.to_nat (Z.min (clamp s a) (clamp s b))).
  set (n := Z.to_nat (Z.max (clamp s a) (clamp s b) - Z.min (clamp s a) (clamp s b))).
  exists (firstn from s), (skipn n (skipn from s)).
  now rewrite (firstn_skipn n), (firstn_skipn from).
Qed.

Lemma get_skipn (s : jsstring) (a : Z) (c : N) :
  get s a = Some c ->
  skipn (Z.to_nat a) s = c :: skipn (Z.to_nat (a + 1)) s.
Proof.
  intros H. pose proof (get_Some_range _ _ _ H) as Hr.
  unfold get in H. destruct (a <? 0); [discriminate|].
  replace (Z.to_nat (a + 1)) with (S (Z.to_nat a)) by lia.
  revert H. generalize (Z.to_nat a) as n. clear Hr.
  induction s as [|x s IH]; intros [|n] H; simpl in *; try discriminate.
  - now injection H as ->.
  - now apply IH.
Qed.

Lemma substring_cons (s : jsstring) (a b : Z) (c : N) :
  get s a = Some c -> a < b ->
  substring s a b = c :: substring s (a + 1) b.
Proof.
  intros Hget Hab. pose proof (get_Some_range _ _ _ Hget) as Hr.
  unfold substring, clamp.
  replace (Z.max 0 (Z.min a (Js.length s))) with a by lia.
  replace (Z.max 0 (Z.min (a + 1) (Js.length s))) with (a + 1) by lia.
  set (b' := Z.max 0 (Z.min b (Js.length s))).
  assert (Hb' : a + 1 <= b') by (unfold b'; lia).
  replace (Z.min a b') with a by lia. replace (Z.max a b') with b' by lia.
  replace (Z.min (a + 1) b') with (a + 1) by lia.
  replace (Z.max (a + 1) b') with b' by lia.
  rewrite (get_skipn _ _ _ Hget).
  replace (Z.to_nat (b' - a)) with (S (Z.to_nat (b' - (a + 1)))) by lia.
  reflexivity.
Qed.

Lemma substring_empty (s : jsstring) (a : Z) : substring s a a = [].
Proof.
  unfold substring. cbv zeta.
  rewrite Z.max_id, Z.min_id, Z.sub_diag. reflexivity.
Qed.

Lemma substring_app (s : jsstring) (a b c : Z) :
  0 <= a <= b -> b <= c -> c <= Js.length s ->
  substring s a b ++ substring s b c = substring s a c.
Proof.
  intros Hab Hbc Hc. unfold substring, clamp.
  replace (Z.max 0 (Z.min a (Js.length s))) with a by lia.
  replace (Z.max 0 (Z.min b (Js.length s))) with b by lia.
  replace (Z.max 0 (Z.min c (Js.length s))) with c by lia.
  replace (Z.min a b) with a by lia. replace (Z.max a b) with b by lia.
  replace (Z.min b c) with b by lia. replace (Z.max b c) with c by lia.
  replace (Z.min a c) with a by lia. replace (Z.max a c) with c by lia.
  replace (Z.to_nat b) with (Z.to_nat (b - a) + Z.to_nat a)%nat by lia.
  rewrite <- skipn_skipn.
  replace (Z.to_nat (c - a)) with (Z.to_nat (b - a) + Z.to_nat (c - b))%nat by lia.
  apply firstn_plus.
Qed.

(** ** Runs of characters *)

(** Where a [scanWhile] stops: it never goes back, every character it
    passed satisfies the test, and it stops at the end of the buffer or on
    a character that fails the test. *)
Lemma scanWhile_loop_run (p : N -> bool) (str : jsstring) :
  forall (fuel : nat) (i : Z),
    0 <= i -> (fuel_for str i <= fuel)%nat ->
    forallb p (substring str i (scanWhile_loop fuel p str i)) = true
    /\ (scanWhile_loop fuel p str i < Js.length str ->
        exists c, get str (scanWhile_loop fuel p str i) = Some c /\ p c = false).
Proof.
  induction fuel as [|fuel IH]; intros i Hi Hfuel; simpl.
  - rewrite substring_empty. split; [reflexivity | fuel_lia].
  - destruct (Z.ltb_spec i (Js.length str)) as [Hlt|Hge]; simpl.
    + destruct (get_in_range str i) as [c Hc]; [lia|]. rewrite Hc.
      destruct (p c) eqn:Hp.
      * destruct (IH (i + 1)) as [Hall Hstop]; [lia | fuel_lia |].
        split; [|exact Hstop].
        pose proof (scanWhile_loop_ge p str fuel (i + 1)).
        rewrite (substring_cons _ _ _ _ Hc) by lia. simpl. now rewrite Hp.
      * rewrite substring_empty. split; [reflexivity|]. intros _. eauto.
    + rewrite substring_empty. split; [reflexivity | lia].
Qed.

Lemma scanWhile_run (p : N -> bool) (str : jsstring) (i : Z) :
  0 <= i ->
  i <= scanWhile p str i
  /\ forallb p (substring str i (scanWhile p str i)) = true
  /\ (scanWhile p str i < Js.length str ->
      exists c, get str (scanWhile p str i) = Some c /\ p c = false).
Proof.
  intros Hi. split; [apply scanWhile_loop_ge|].
  apply scanWhile_loop_run; [exact Hi | lia].
Qed.

Lemma get_forallb (p : N -> bool) (s : jsstring) (i : Z) (c : N) :
  forallb p s = true -> get s i = Some c -> p c = true.
Proof.
  intros Hall Hget. unfold get in Hget. destruct (i <? 0); [discriminate|].
  apply nth_error_In in Hget. rewrite forallb_forall in Hall. auto.
Qed.

(** ** What the property locator returns *)

Lemma skipToken_nonneg (body : jsstring) (i : Z) : 0 <= i -> 0 <= skipToken body i.
Proof.
  intros Hi. unfold skipToken.
  assert (Hfb : -1 <= findBalancedEnd body i).
  { destruct (Z.eq_dec (findBalancedEnd body i) (-1)) as [->|Hne]; [lia|].
    pose proof (findBalancedEnd_found body i Hne). lia. }
  pose proof (skipTemplate_advances body i).
  pose proof (skipQuoted_advances body i).
  pose proof (scanWhile_loop_ge (fun c => negb (is_token_stop c)) body
                (fuel_for body i) i) as Hs.
  fold (scanWhile (fun c => negb (is_token_stop c)) body i) in Hs.
  repeat match goal with |- context [if ?b then _ else _] => destruct b end; lia.
Qed.

Lemma matchProp_sound (body name v : jsstring) (i : Z) :
  0 <= i ->
  matchProp body name i = Some v ->
  occurs v body
  /\ exists blanks,
       forallb is_blank blanks = true
       /\ occurs (name ++ blanks ++ [colon]) body.
Proof.
  intros Hi. unfold matchProp.
  destruct (str_eqb (substring body i (i + Js.length name)) name) eqn:Hname;
    [|discriminate].
  apply str_eqb_eq in Hname.
  set (j := scanWhile is_blank body (i + Js.length name)).
  destruct (is_ch (get body j) colon) eqn:Hcolon; [|discriminate].
  intros H. injection H as <-. split; [apply occurs_substring|].
  pose proof (length_nonneg name) as Hln.
  destruct (scanWhile_run is_blank body (i + Js.length name)) as [Hge [Hall _]];
    [lia|].
  fold j in Hge, Hall.
  unfold is_ch in Hcolon. destruct (get body j) as [c|] eqn:Hj; [|discriminate].
  apply N.eqb_eq in Hcolon. subst c.
  pose proof (get_Some_range _ _ _ Hj) as Hjr.
  exists (substring body (i + Js.length name) j). split; [exact Hall|].
  assert (Hlast : substring body j (j + 1) = [colon]).
  { rewrite (substring_cons _ _ _ _ Hj) by lia. now rewrite substring_empty. }
  rewrite <- Hname at 1. rewrite <- Hlast.
  rewrite (substring_app body (i + Js.length name) j (j + 1)) by lia.
  rewrite (substring_app body i (i + Js.length name) (j + 1)) by lia.
  apply occurs_substring.
Qed.

Lemma extractProp_loop_sound (body name v : jsstring) :
  forall (fuel : nat) (i : Z),
    0 <= i ->
    extractProp_loop fuel body name i = Some (Some v) ->
    occurs v body
    /\ exists blanks,
         forallb is_blank blanks = true
         /\ occurs (name ++ blanks ++ [colon]) body.
Proof.
  induction fuel as [|fuel IH]; intros i Hi; simpl; [discriminate|].
  destruct (i <? Js.length body); [|discriminate].
  unfold extractProp_turn.
  pose proof (scanWhile_loop_ge is_space body (fuel_for body i) i) as Hge.
  fold (scanWhile is_space body i) in Hge.
  destruct (Js.length body <=? scanWhile is_space body i); [discriminate|].
  destruct (matchProp body name (scanWhile is_space body i)) as [v'|] eqn:Hm.
  - intros H. injection H as ->. eapply matchProp_sound; [|exact Hm]. lia.
  - apply IH. apply skipToken_nonneg. lia.
Qed.

(** X4: A value returned by [extractProp] is a piece of the body, and the body
    holds the name followed by spaces and a colon: the locator never
    returns a property that is not written in the body. *)
Theorem extractProp_sound (fuel : nat) (body name v : jsstring) :
  extractProp fuel body name = Some (Some v) ->
  occurs v body
  /\ exists blanks,
       forallb is_blank blanks = true
       /\ occurs (name ++ blanks ++ [colon]) body.
Proof. apply extractProp_loop_sound. lia. Qed.

Lemma extractProp_sound_witness :
  occurs (lit "[1, 2]") (lit "a: 0, targets : [1, 2], b: 3")
  /\ exists blanks,
       forallb is_blank blanks = true
       /\ occurs (lit "targets" ++ blanks ++ [colon])
                 (lit "a: 0, targets : [1, 2], b: 3").
Proof.
  apply (extractProp_sound 5 (lit "a: 0, targets : [1, 2], b: 3") (lit "targets")).
  vm_compute. reflexivity.
Defined.

(** X5: On an empty body, or one made of white space only, [extractProp]
    returns [null] for every name, within one turn of its loop. *)
Theorem extractProp_blank_body (fuel : nat) (body name : jsstring) :
  forallb is_space body = true ->
  extractProp (S fuel) body name = Some None.
Proof.
  intros Hall. unfold extractProp. simpl.
  destruct (0 <? Js.length body); [|reflexivity].
  unfold extractProp_turn.
  destruct (scanWhile_run is_space body 0) as [_ [_ Hstop]]; [lia|].
  destruct (Z.leb_spec (Js.length body) (scanWhile is_space body 0)) as [_|Hlt];
    [reflexivity|].
  destruct (Hstop Hlt) as [c [Hc Hp]].
  rewrite (get_forallb _ _ _ _ Hall Hc) in Hp. discriminate.
Qed.

Lemma extractProp_blank_body_witness :
  extractProp 1 (lit "   ") (lit "value") = Some None.
Proof. apply (extractProp_blank_body 0 (lit "   ") (lit "value")). reflexivity. Defined.

(** ** Lines and indentation *)

Lemma split_lines_acc_nonempty (s cur : jsstring) : split_lines_acc s cur <> [].
Proof.
  revert cur. induction s as [|c s IH]; intros cur; simpl; [discriminate|].
  destruct (N.eqb c 10); [discriminate | apply IH].
Qed.

Lemma join_lines_cons (l : jsstring) (ls : list jsstring) :
  ls <> [] -> join_lines (l :: ls) = l ++ 10%N :: join_lines ls.
Proof. destruct ls; [contradiction | reflexivity]. Qed.

Lemma join_split_lines_acc (s cur : jsstring) :
  join_lines (split_lines_acc s cur) = rev cur ++ s.
Proof.
  revert cur. induction s as [|c s IH]; intros cur; cbn [split_lines_acc].
  - simpl. now rewrite app_nil_r.
  - destruct (N.eqb_spec c 10) as [->|Hc].
    + rewrite join_lines_cons by apply split_lines_acc_nonempty.
      now rewrite IH.
    + rewrite IH. simpl. now rewrite <- app_assoc.
Qed.

Lemma split_lines_acc_line (l s cur : jsstring) :
  one_line l = true ->
  split_lines_acc (l ++ s) cur = split_lines_acc s (rev l ++ cur).
Proof.
  revert cur. induction l as [|c l IH]; intros cur Hl; simpl; [reflexivity|].
  simpl in Hl. apply andb_true_iff in Hl as [Hc Hl].
  apply negb_true_iff in Hc. unfold newline in Hc. rewrite Hc.
  rewrite IH by exact Hl. now rewrite <- app_assoc.
Qed.

Lemma split_join_lines (l : jsstring) (ls : list jsstring) :
  forallb one_line (l :: ls) = true ->
  split_lines (join_lines (l :: ls)) = l :: ls.
Proof.
  unfold split_lines. revert l.
  induction ls as [|l' ls IH]; intros l Hall; simpl in Hall;
    apply andb_true_iff in Hall as [Hl Hall].
  - simpl. rewrite <- (app_nil_r l) at 1.
    rewrite split_lines_acc_line by exact Hl.
    simpl. now rewrite app_nil_r, rev_involutive.
  - change (join_lines (l :: l' :: ls)) with (l ++ 10%N :: join_lines (l' :: ls)).
    rewrite split_lines_acc_line by exact Hl. simpl.
    rewrite app_nil_r, rev_involutive. f_equal. apply IH. exact Hall.
Qed.

Lemma reindent_from_later (extra : jsstring) (ls : list jsstring) (idx : nat) :
  reindent_from (S idx) extra ls = map (reindent_line extra) ls.
Proof.
  revert idx. induction ls as [|l ls IH]; intros idx; simpl; [reflexivity|].
  now rewrite IH.
Qed.

Lemma reindent_from_nothing (ls : list jsstring) (idx : nat) :
  reindent_from idx [] ls = ls.
Proof.
  revert idx. induction ls as [|l ls IH]; intros idx; simpl; [reflexivity|].
  rewrite IH. now destruct (Nat.eqb idx 0 || str_eqb (trim l) []).
Qed.

(** X6: With an empty indent [reindentLines] gives the text back: splitting at
    line breaks and joining again loses nothing. *)
Theorem reindentLines_empty_extra (text : jsstring) :
  reindentLines text [] = text.
Proof.
  unfold reindentLines, split_lines.
  rewrite reindent_from_nothing. apply join_split_lines_acc.
Qed.

(** X7: Line by line: the first line is kept, every later line that holds
    something else than white space gets the indent in front of it, and a
    later line that is empty or blank is kept as it is. *)
Theorem reindentLines_by_line (extra l : jsstring) (ls : list jsstring) :
  forallb one_line (l :: ls) = true ->
  reindentLines (join_lines (l :: ls)) extra
  = join_lines (l :: map (reindent_line extra) ls).
Proof.
  intros Hall. unfold reindentLines. rewrite split_join_lines by exact Hall.
  simpl reindent_from. now rewrite reindent_from_later.
Qed.

Lemma reindentLines_by_line_witness :
  reindentLines (join_lines [lit "[{"; lit "  a: 1"; lit "  "; lit ""; lit "}]"])
                (lit "    ")
  = join_lines (lit "[{" :: map (reindent_line (lit "    "))
                                [lit "  a: 1"; lit "  "; lit ""; lit "}]"]).
Proof.
  apply (reindentLines_by_line (lit "    ") (lit "[{")
           [lit "  a: 1"; lit "  "; lit ""; lit "}]"]).
  reflexivity.
Defined.

(** ** The search of the driver *)

Lemma findElemStart_loop_ge (content : jsstring) :
  forall (fuel : nat) (i : Z),
    findElemStart_loop fuel content i <> -1 ->
    i <= findElemStart_loop fuel content i.
Proof.
  induction fuel as [|fuel IH]; intros i; simpl; [congruence|].
  destruct (i <? Js.length content); [|congruence].
  destruct (is_ch (get content i) lbrace); [lia|].
  destruct (is_ch (get content i) rbrack); [congruence|].
  destruct (negb _); [congruence|].
  intros H. specialize (IH _ H). lia.
Qed.

Lemma candidate_end (content : jsstring) (sf es ee : Z) :
  locateElement content sf = Candidate es ee ->
  ee = findBalancedEnd content es /\ ee <> -1.
Proof.
  unfold locateElement.
  destruct (indexOf content anchor sf =? -1); [discriminate|].
  destruct (negb (is_ch (get content _) lbrack)); [discriminate|].
  match goal with |- context [findElemStart content ?b] =>
    destruct (findElemStart content b =? -1); [discriminate|];
    destruct (Z.eqb_spec (findBalancedEnd content (findElemStart content b)) (-1))
      as [|Hne]; [discriminate|];
    intros H; injection H as <- <-; split; [reflexivity | exact Hne]
  end.
Qed.

(** The endpoints of a located element: an opening brace, and after it the
    closing brace that [findBalancedEnd] pairs with it. *)
Lemma candidate_span (content : jsstring) (sf es ee : Z) :
  locateElement content sf = Candidate es ee ->
  get content es = Some lbrace /\ get content ee = Some rbrace
  /\ es < ee < Js.length content.
Proof.
  intros Hloc. pose proof (candidate_is_brace _ _ _ _ Hloc) as Hes.
  destruct (candidate_end _ _ _ _ Hloc) as [-> Hne].
  destruct (findBalancedEnd_found content es Hne) as [Hr [Hget Hlt]].
  rewrite Hes in Hget, Hlt. split; [exact Hes|]. split; [exact Hget|].
  specialize (Hlt eq_refl). lia.
Qed.

Lemma indexOf_from_ge (s p : jsstring) (from : Z) :
  0 <= from <= Js.length s ->
  indexOf s p from = -1 \/ from <= indexOf s p from.
Proof.
  intros Hr. unfold indexOf, clamp.
  replace (Z.max 0 (Z.min from (Js.length s))) with from by lia.
  apply indexOf_in_range.
Qed.

(** Every turn of the driver that does not end the search moves the cursor
    forward. *)
Lemma locateElement_advances (content : jsstring) (sf : Z) :
  0 <= sf <= Js.length content ->
  match locateElement content sf with
  | NoAnchor => True
  | Skip sf' => sf < sf'
  | Candidate es ee => sf < es /\ es < ee
  end.
Proof.
  intros Hsf. destruct (locateElement content sf) as [|sf'|es ee] eqn:Hloc;
    [exact I | |].
  - revert Hloc. unfold locateElement.
    destruct (Z.eqb_spec (indexOf content anchor sf) (-1)) as [|Hidx]; [discriminate|].
    destruct (indexOf_from_ge content anchor sf Hsf) as [|Hge]; [contradiction|].
    pose proof (scanWhile_loop_ge is_space content
                  (fuel_for content (indexOf content anchor sf + Js.length anchor))
                  (indexOf content anchor sf + Js.length anchor)) as Hbi.
    fold (scanWhile is_space content (indexOf content anchor sf + Js.length anchor)) in Hbi.
    set (bi := scanWhile is_space content (indexOf content anchor sf + Js.length anchor)) in *.
    assert (Hlen : Js.length anchor = 11) by reflexivity.
    destruct (negb (is_ch (get content bi) lbrack)).
    { intros H. injection H as <-. lia. }
    destruct (Z.eqb_spec (findElemStart content (bi + 1)) (-1)) as [|Hes].
    { intros H. injection H as <-. lia. }
    apply findElemStart_loop_ge in Hes as Hes'.
    fold (findElemStart content (bi + 1)) in Hes'.
    destruct (findBalancedEnd content (findElemStart content (bi + 1)) =? -1);
      [|discriminate].
    intros H. injection H as <-. lia.
  - pose proof (candidate_span _ _ _ _ Hloc) as [_ [_ Hspan]].
    split; [|lia].
    revert Hloc. unfold locateElement.
    destruct (Z.eqb_spec (indexOf content anchor sf) (-1)) as [|Hidx]; [discriminate|].
    destruct (indexOf_from_ge content anchor sf Hsf) as [|Hge]; [contradiction|].
    pose proof (scanWhile_loop_ge is_space content
                  (fuel_for content (indexOf content anchor sf + Js.length anchor))
                  (indexOf content anchor sf + Js.length anchor)) as Hbi.
    fold (scanWhile is_space content (indexOf content anchor sf + Js.length anchor)) in Hbi.
    set (bi := scanWhile is_space content (indexOf content anchor sf + Js.length anchor)) in *.
    assert (Hlen : Js.length anchor = 11) by reflexivity.
    destruct (negb (is_ch (get content bi) lbrack)); [discriminate|].
    destruct (Z.eqb_spec (findElemStart content (bi + 1)) (-1)) as [|Hes];
      [discriminate|].
    apply findElemStart_loop_ge in Hes as Hes'.
    fold (findElemStart content (bi + 1)) in Hes'.
    destruct (findBalancedEnd content (findElemStart content (bi + 1)) =? -1);
      [discriminate|].
    intros H. injection H as <- _. lia.
Qed.

Lemma rewrite_loop_stall (n : nat) (content unit : jsstring) :
  forall (fuel : nat) (sf : Z),
    0 <= sf -> (fuel_for content sf < fuel)%nat ->
    rewrite_loop n fuel content unit sf = None ->
    exists sf' es ee,
      locateElement content sf' = Candidate es ee
      /\ checkShape n (substring content (es + 1) ee) = None.
Proof.
  induction fuel as [|fuel IH]; intros sf Hsf Hfuel; [lia|].
  simpl. destruct (Z.ltb_spec sf (Js.length content)) as [Hlt|Hge]; [|discriminate].
  pose proof (locateElement_advances content sf ltac:(lia)) as Hadv.
  destruct (locateElement content sf) as [|sf'|es ee] eqn:Hloc; [discriminate | |].
  - apply IH; [lia | fuel_lia].
  - destruct (checkShape n (substring content (es + 1) ee)) as [[p|]|] eqn:Hc.
    + discriminate.
    + apply IH; [lia | fuel_lia].
    + intros _. exists sf, es, ee. auto.
Qed.

(** X8: With a budget larger than the length of the file, the driver can fail
    to return for one reason only: an [extractProp] call on the body of a
    located element does not return.  The search itself always ends, since
    its cursor moves forward at every turn. *)
Theorem driver_stalls_only_in_extractProp (fuel : nat) (content : jsstring) :
  Js.length content < Z.of_nat fuel ->
  rewriteShippingDiscountOutput fuel content = None ->
  exists sf es ee,
    locateElement content sf = Candidate es ee
    /\ checkShape fuel (substring content (es + 1) ee) = None.
Proof.
  intros Hfuel. unfold rewriteShippingDiscountOutput.
  destruct (includes content marker); [discriminate|].
  pose proof (length_nonneg content).
  apply rewrite_loop_stall; [lia | fuel_lia].
Qed.

Lemma driver_stalls_only_in_extractProp_witness :
  exists sf es ee,
    locateElement stray_bracket_file sf = Candidate es ee
    /\ checkShape 19 (substring stray_bracket_file (es + 1) ee) = None.
Proof.
  apply (driver_stalls_only_in_extractProp 19 stray_bracket_file).
  - vm_compute. reflexivity.
  - vm_compute. reflexivity.
Defined.

(** X9: What a rewrite changes: when the driver returns something else than its
    input, one element was accepted; its span runs from an opening brace
    to the closing brace paired with it; the output is the input up to the
    start of the line of that brace, the assembled block, and the input
    after the closing brace; the input did not hold the marker and the
    output does. *)
Theorem rewrite_changes_one_element (fuel : nat) (content out : jsstring) :
  rewriteShippingDiscountOutput fuel content = Some out ->
  out = content
  \/ exists es ee p,
       accepted fuel content es ee p
       /\ get content es = Some lbrace /\ get content ee = Some rbrace
       /\ 0 <= lineStart content es <= es /\ es < ee < Js.length content
       /\ out =
          substring content 0 (lineStart content es)
          ++ newElem
               (leading_space (substring content (lineStart content es) es))
               (detectIndentUnit content) p
          ++ substring_from content (ee + 1)
       /\ ~ occurs marker content
       /\ occurs marker out.
Proof.
  intros H. assert (Hrun := H). revert H.
  unfold rewriteShippingDiscountOutput.
  destruct (includes content marker) eqn:Hm; [left; congruence|].
  intros H. apply rewrite_loop_result in H as [->|[es [ee [p [Hacc ->]]]]];
    [now left|].
  right. exists es, ee, p.
  destruct Hacc as [sf [Hloc Hshape]].
  destruct (candidate_span _ _ _ _ Hloc) as [Hes [Hee Hspan]].
  pose proof (get_Some_range _ _ _ Hes) as Hr.
  split; [exists sf; auto|]. split; [exact Hes|]. split; [exact Hee|].
  split; [apply lineStart_range; lia|]. split; [exact Hspan|].
  split; [reflexivity|]. split.
  - intros Hocc. apply includes_occurs in Hocc. congruence.
  - apply marker_in_splice.
Qed.

Lemma rewrite_changes_one_element_witness :
  own_line_rewritten = own_line_file
  \/ exists es ee p,
       accepted 7 own_line_file es ee p
       /\ get own_line_file es = Some lbrace /\ get own_line_file ee = Some rbrace
       /\ 0 <= lineStart own_line_file es <= es /\ es < ee < Js.length own_line_file
       /\ own_line_rewritten =
          substring own_line_file 0 (lineStart own_line_file es)
          ++ newElem
               (leading_space (substring own_line_file (lineStart own_line_file es) es))
               (detectIndentUnit own_line_file) p
          ++ substring_from own_line_file (ee + 1)
       /\ ~ occurs marker own_line_file
       /\ occurs marker own_line_rewritten.
Proof.
  apply (rewrite_changes_one_element 7 own_line_file own_line_rewritten).
  vm_compute. reflexivity.
Defined.


Lemma findBalancedEnd_plain_witness :
  findBalancedEnd
    (lit "x = " ++ lbrace :: lit " a: [1], b: { c: 2 } " ++ rbrace :: lit ";")
    (Js.length (lit "x = "))
  = Js.length (lit "x = ") + 1 + Js.length (lit " a: [1], b: { c: 2 } ").
Proof.
  apply (findBalancedEnd_plain lbrace rbrace).
  - left. split; reflexivity.
  - reflexivity.
  - split; [reflexivity|].
    intros j.
    do 22 (destruct j as [|j]; [vm_compute; discriminate|]).
    rewrite firstn_all2 by (simpl; lia). vm_compute. discriminate.
Defined.

(** ** Naming helpers *)

Lemma join_with_cons (glue l : jsstring) (ls : list jsstring) :
  ls <> [] -> join_with glue (l :: ls) = l ++ glue ++ join_with glue ls.
Proof. destruct ls; [contradiction | reflexivity]. Qed.

Lemma split_acc_nonempty (sep : N -> bool) (s cur : jsstring) :
  split_acc sep s cur <> [].
Proof.
  revert cur. induction s as [|c s IH]; intros cur; simpl; [discriminate|].
  destruct (sep c); [discriminate | apply IH].
Qed.

Lemma join_split_acc (sep : N -> bool) (glue : N) (s cur : jsstring) :
  join_with [glue] (split_acc sep s cur)
  = rev cur ++ map (fun c => if sep c then glue else c) s.
Proof.
  revert cur. induction s as [|c s IH]; intros cur; cbn [split_acc map].
  - simpl. now rewrite app_nil_r.
  - destruct (sep c).
    + rewrite join_with_cons by apply split_acc_nonempty. now rewrite IH.
    + rewrite IH. simpl. now rewrite <- app_assoc.
Qed.

Lemma toSnake_map (target : jsstring) :
  toSnake target
  = map (fun c => if is_separator c then underscore else c) target.
Proof. unfold toSnake, segments, split_on. apply join_split_acc. Qed.

(** X12: [toSnake] is a change of characters: each dot and each hyphen becomes
    an underscore and every other character stays where it is, so the
    length is kept and no separator is left. *)
Theorem toSnake_charwise (target : jsstring) :
  toSnake target
  = map (fun c => if is_separator c then underscore else c) target
  /\ List.length (toSnake target) = List.length target
  /\ forallb (fun c => negb (is_separator c)) (toSnake target) = true.
Proof.
  rewrite toSnake_map. split; [reflexivity|]. split; [apply length_map|].
  induction target as [|c t IH]; [reflexivity|].
  simpl. rewrite IH. destruct (is_separator c) eqn:Hc; [reflexivity|].
  now rewrite Hc.
Qed.

(** X13: Taking the kebab form first does not change the snake form, and the
    kebab form of a kebab form is itself. *)
Theorem toSnake_toKebab (target : jsstring) :
  toSnake (toKebab target) = toSnake target
  /\ toKebab (toKebab target) = toKebab target.
Proof.
  rewrite !toSnake_map. unfold toKebab. split.
  - induction target as [|c t IH]; [reflexivity|].
    simpl. rewrite map_app, IH.
    destruct (N.eqb_spec c dot) as [->|_]; reflexivity.
  - induction target as [|c t IH]; [reflexivity|].
    simpl. rewrite flat_map_app, IH. f_equal.
    destruct (N.eqb_spec c dot) as [->|Hc]; simpl; [reflexivity|].
    apply N.eqb_neq in Hc. now rewrite Hc.
Qed.

Lemma split_acc_after (sep : N -> bool) (x s : jsstring) (c : N) :
  sep c = true ->
  In x (split_acc sep s []) ->
  forall a cur, In x (split_acc sep (a ++ c :: s) cur).
Proof.
  intros Hc Hin. induction a as [|y a IH]; intros cur; simpl.
  - rewrite Hc. now right.
  - destruct (sep y); [right|]; apply IH.
Qed.

Lemma empty_segment_split (t : jsstring) :
  empty_segment t -> In [] (segments t).
Proof.
  unfold segments, split_on. intros [|c rest Hc|a c Hc|a c1 c2 b H1 H2].
  - now left.
  - simpl. rewrite Hc. now left.
  - apply split_acc_after; [exact Hc | now left].
  - apply split_acc_after; [exact H1|]. simpl. rewrite H2. now left.
Qed.

Lemma split_empty_segment (s cur : jsstring) :
  In [] (split_acc is_separator s cur) ->
  (cur = [] /\ empty_segment s)
  \/ (exists a c, s = a ++ [c] /\ is_separator c = true)
  \/ (exists a c1 c2 b, s = a ++ c1 :: c2 :: b
                         /\ is_separator c1 = true /\ is_separator c2 = true).
Proof.
  revert cur. induction s as [|c s IH]; intros cur; simpl.
  - intros [H|[]]. left. split; [|constructor].
    destruct cur as [|x cur]; [reflexivity|].
    simpl in H. now destruct (rev cur).
  - destruct (is_separator c) eqn:Hc.
    + intros [H|H].
      * left. split; [|now constructor].
        destruct cur as [|x cur]; [reflexivity|].
        simpl in H. now destruct (rev cur).
      * right. destruct (IH [] H) as [[_ He]|[[a [c' [-> Hc']]]|[a [c1 [c2 [b [-> [H1 H2]]]]]]]].
        -- inversion He as [Hs|c' rest Hc' Hs|a c' Hc' Hs|a c1 c2 b H1 H2 Hs].
           ++ left. exists [], c. split; [reflexivity | exact Hc].
           ++ right. exists [], c, c', rest. auto.
           ++ left. exists (c :: a), c'. auto.
           ++ right. exists (c :: a), c1, c2, b. auto.
        -- left. exists (c :: a), c'. auto.
        -- right. exists (c :: a), c1, c2, b. auto.
    + intros H. right.
      destruct (IH (c :: cur) H) as [[Hcur _]|[[a [c' [-> Hc']]]|[a [c1 [c2 [b [-> [H1 H2]]]]]]]].
      * discriminate.
      * left. exists (c :: a), c'. auto.
      * right. exists (c :: a), c1, c2, b. auto.
Qed.

Lemma map_throwing_None {A B : Type} (f : A -> option B) (l : list A) :
  map_throwing f l = None <-> exists x, In x l /\ f x = None.
Proof.
  induction l as [|x l IH]; simpl.
  - split; [discriminate | intros [x [[] _]]].
  - destruct (f x) as [y|] eqn:Hx.
    + destruct (map_throwing f l) as [ys|].
      * split; [discriminate|]. intros [z [[->|Hin] Hz]]; [congruence|].
        assert (H : Some ys = None) by (apply IH; eauto).
        discriminate H.
      * split; [|reflexivity]. intros _.
        destruct (proj1 IH eq_refl) as [z [Hin Hz]]. eauto.
    + split; [|reflexivity]. intros _. eauto.
Qed.

(** X14: [toPascal] throws exactly on the targets that have an empty segment:
    the empty target, a target that starts or ends with a dot or a hyphen,
    and a target with two of them in a row. *)
Theorem toPascal_throws_iff (toUpperCase : N -> jsstring) (target : jsstring) :
  toPascal toUpperCase target = None <-> empty_segment target.
Proof.
  unfold toPascal. split.
  - intros H.
    destruct (map_throwing (capitalize toUpperCase) (segments target)) eqn:Hm;
      [discriminate|].
    apply map_throwing_None in Hm as [x [Hin Hx]].
    destruct x; [|discriminate].
    destruct (split_empty_segment target [] Hin)
      as [[_ He]|[[a [c [-> Hc]]]|[a [c1 [c2 [b [-> [H1 H2]]]]]]]];
      [exact He | now constructor | now constructor].
  - intros He. apply empty_segment_split in He.
    replace (map_throwing (capitalize toUpperCase) (segments target)) with (@None (list jsstring));
      [reflexivity|].
    symmetry. apply map_throwing_None. exists []. auto.
Qed.

Lemma map_throwing_head {A B : Type} (f : A -> option B) (x : A) (l : list A)
    (ys : list B) :
  map_throwing f (x :: l) = Some ys ->
  exists y ys', f x = Some y /\ ys = y :: ys'.
Proof.
  simpl. destruct (f x) as [y|]; [|discriminate].
  destruct (map_throwing f l) as [ys'|]; [|discriminate].
  intros H. injection H as <-. eauto.
Qed.

(** X15: [toCamel] throws only when [toPascal] does: the first character that
    it reads always exists, since the first segment is not empty and its
    first character has an upper-case form that is not empty. *)
Theorem toCamel_throws_iff (toUpperCase toLowerCase : N -> jsstring)
    (target : jsstring) :
  (forall c, toUpperCase c <> []) ->
  (toCamel toUpperCase toLowerCase target = None
   <-> toPascal toUpperCase target = None).
Proof.
  intros Hup. unfold toCamel. split; [|now intros ->].
  destruct (toPascal toUpperCase target) as [p|] eqn:Hp; [|reflexivity].
  destruct p as [|c rest]; [|discriminate]. intros _. exfalso.
  unfold toPascal in Hp.
  destruct (map_throwing (capitalize toUpperCase) (segments target)) as [ys|] eqn:Hm;
    [|discriminate].
  simpl in Hp. injection Hp as Hj.
  unfold segments, split_on in Hm.
  destruct (split_acc is_separator target []) as [|x l] eqn:Hs;
    [now apply split_acc_nonempty in Hs|].
  apply map_throwing_head in Hm as [y [ys' [Hy ->]]].
  destruct x as [|c r]; [discriminate|]. simpl in Hy. injection Hy as <-.
  destruct (toUpperCase c) as [|u us] eqn:Hu; [now apply (Hup c)|].
  destruct ys'; discriminate.
Qed.

Lemma toCamel_throws_iff_witness :
  toCamel ascii_upper ascii_lower (lit "cart.transform.run") = None
  <-> toPascal ascii_upper (lit "cart.transform.run") = None.
Proof.
  apply (toCamel_throws_iff ascii_upper ascii_lower (lit "cart.transform.run")).
  intros c. unfold ascii_upper.
  destruct ((97 <=? c) && (c <=? 122))%N; discriminate.
Defined.

Lemma split_acc_piece (sep : N -> bool) (l s cur : jsstring) :
  forallb (fun c => negb (sep c)) l = true ->
  split_acc sep (l ++ s) cur = split_acc sep s (rev l ++ cur).
Proof.
  revert cur. induction l as [|c l IH]; intros cur Hl; simpl; [reflexivity|].
  simpl in Hl. apply andb_true_iff in Hl as [Hc Hl].
  apply negb_true_iff in Hc. rewrite Hc, IH by exact Hl.
  now rewrite <- app_assoc.
Qed.

Lemma split_acc_first (sep : N -> bool) (l s cur : jsstring) (c : N) :
  forallb (fun c => negb (sep c)) l = true -> sep c = true ->
  split_acc sep (l ++ c :: s) cur = (rev cur ++ l) :: split_acc sep s [].
Proof.
  intros Hl Hc. rewrite split_acc_piece by exact Hl. simpl. rewrite Hc.
  now rewrite rev_app_distr, rev_involutive.
Qed.

Lemma split_acc_last (sep : N -> bool) (l cur : jsstring) :
  forallb (fun c => negb (sep c)) l = true ->
  split_acc sep l cur = [rev cur ++ l].
Proof.
  intros Hl. rewrite <- (app_nil_r l) at 1.
  rewrite split_acc_piece by exact Hl. simpl.
  now rewrite rev_app_distr, rev_involutive.
Qed.

(** X16: On [year-month], with no hyphen in either part, the package version is
    [year.month.x]; whatever follows a second hyphen is ignored; and
    without any hyphen the month is missing and prints as [undefined]. *)
Theorem apiVersionToPackageVersion_parts (year month rest : jsstring) :
  forallb (fun c => negb (N.eqb hyphen c)) year = true ->
  forallb (fun c => negb (N.eqb hyphen c)) month = true ->
  apiVersionToPackageVersion (year ++ [hyphen] ++ month)
  = year ++ lit "." ++ month ++ lit ".x"
  /\ apiVersionToPackageVersion (year ++ [hyphen] ++ month ++ [hyphen] ++ rest)
     = year ++ lit "." ++ month ++ lit ".x"
  /\ apiVersionToPackageVersion year = year ++ lit ".undefined.x".
Proof.
  intros Hy Hm. unfold apiVersionToPackageVersion, split_on. cbv zeta.
  assert (Hsep : N.eqb hyphen hyphen = true) by reflexivity.
  split; [|split].
  - change (year ++ [hyphen] ++ month) with (year ++ hyphen :: month).
    rewrite (split_acc_first _ year) by assumption.
    rewrite (split_acc_last _ month) by assumption. reflexivity.
  - change (year ++ [hyphen] ++ month ++ [hyphen] ++ rest)
      with (year ++ hyphen :: month ++ hyphen :: rest).
    rewrite (split_acc_first _ year) by assumption.
    rewrite (split_acc_first _ month) by assumption. reflexivity.
  - rewrite (split_acc_last _ year) by assumption. reflexivity.
Qed.

Lemma apiVersionToPackageVersion_parts_witness :
  apiVersionToPackageVersion (lit "2026" ++ [hyphen] ++ lit "01")
  = lit "2026" ++ lit "." ++ lit "01" ++ lit ".x"
  /\ apiVersionToPackageVersion
       (lit "2026" ++ [hyphen] ++ lit "01" ++ [hyphen] ++ lit "rc")
     = lit "2026" ++ lit "." ++ lit "01" ++ lit ".x"
  /\ apiVersionToPackageVersion (lit "2026") = lit "2026" ++ lit ".undefined.x".
Proof.
  apply (apiVersionToPackageVersion_parts (lit "2026") (lit "01") (lit "rc"));
    reflexivity.
Defined.

(** ** TOML helpers *)

Lemma take_drop_while (p : N -> bool) (l : jsstring) :
  takeWhile p l ++ dropWhile p l = l.
Proof.
  induction l as [|c l IH]; simpl; [reflexivity|].
  destruct (p c); simpl; [now rewrite IH | reflexivity].
Qed.

Lemma takeWhile_forallb (p : N -> bool) (l : jsstring) :
  forallb p (takeWhile p l) = true.
Proof.
  induction l as [|c l IH]; simpl; [reflexivity|].
  destruct (p c) eqn:Hc; simpl; [now rewrite Hc | reflexivity].
Qed.

Lemma dropWhile_head (p : N -> bool) (l r : jsstring) (c : N) :
  dropWhile p l = c :: r -> p c = false.
Proof.
  induction l as [|x l IH]; simpl; [discriminate|].
  destruct (p x) eqn:Hx; [exact IH|]. intros H. injection H as -> _. exact Hx.
Qed.

Lemma while_stop (p : N -> bool) (a r : jsstring) (c : N) :
  forallb p a = true -> p c = false ->
  takeWhile p (a ++ c :: r) = a /\ dropWhile p (a ++ c :: r) = c :: r.
Proof.
  intros Ha Hc. induction a as [|x a IH]; simpl.
  - now rewrite Hc.
  - simpl in Ha. apply andb_true_iff in Ha as [Hx Ha]. rewrite Hx.
    destruct (IH Ha) as [-> ->]. auto.
Qed.

Lemma prefixb_app (key r : jsstring) : prefixb key (key ++ r) = true.
Proof. apply prefixb_true. eauto. Qed.

Lemma first_stop (p : N -> bool) (a a' r r' : jsstring) (c c' : N) :
  forallb p a = true -> forallb p a' = true -> p c = false -> p c' = false ->
  a ++ c :: r = a' ++ c' :: r' -> a = a' /\ c = c' /\ r = r'.
Proof.
  intros Ha Ha' Hc Hc' H.
  destruct (while_stop p a r c Ha Hc) as [Ht Hd].
  destruct (while_stop p a' r' c' Ha' Hc') as [Ht' Hd'].
  rewrite H in Ht, Hd. rewrite Ht in Ht'. rewrite Hd in Hd'.
  injection Hd' as -> ->. auto.
Qed.

(** What a successful attempt has read. *)
Lemma match_assign_sound (key : jsstring) (ne : bool) (rest h v t : jsstring) :
  match_assign key ne rest = Some (h, v, t) ->
  exists ws1 ws2,
    forallb is_space ws1 = true /\ forallb is_space ws2 = true
    /\ h = assign_head key ws1 ws2
    /\ forallb not_dquote v = true
    /\ rest = assignment h v t
    /\ (ne = true -> v <> []).
Proof.
  unfold match_assign.
  destruct (prefixb key rest) eqn:Hk; [|discriminate].
  apply prefixb_true in Hk as [r1 ->].
  rewrite skipn_app, skipn_all, Nat.sub_diag. simpl skipn. simpl app at 1.
  destruct (dropWhile is_space r1) as [|c r2] eqn:D1; [discriminate|].
  destruct (N.eqb_spec c equals) as [->|]; [|discriminate].
  destruct (dropWhile is_space r2) as [|q r3] eqn:D2; [discriminate|].
  destruct (N.eqb_spec q dquote) as [->|]; [|discriminate].
  destruct (dropWhile not_dquote r3) as [|q' r4] eqn:D3; [discriminate|].
  destruct (ne && str_eqb (takeWhile not_dquote r3) []) eqn:Hne; [discriminate|].
  intros H. injection H as <- <- <-.
  exists (takeWhile is_space r1), (takeWhile is_space r2).
  split; [apply takeWhile_forallb|]. split; [apply takeWhile_forallb|].
  split; [reflexivity|]. split; [apply takeWhile_forallb|]. split.
  - apply dropWhile_head in D3 as Hq'. unfold not_dquote in Hq'.
    apply negb_false_iff, N.eqb_eq in Hq'. subst q'.
    unfold assignment, assign_head.
    rewrite <- (take_drop_while is_space r1) at 1. rewrite D1.
    rewrite <- (take_drop_while is_space r2) at 1. rewrite D2.
    rewrite <- (take_drop_while not_dquote r3) at 1. rewrite D3.
    rewrite <- !app_assoc. reflexivity.
  - intros ->. simpl in Hne. intros Hv. rewrite Hv in Hne. discriminate.
Qed.

(** An attempt on the text of an assignment reads that assignment. *)
Lemma match_assign_complete (key : jsstring) (ne : bool) (ws1 ws2 v t : jsstring) :
  forallb is_space ws1 = true -> forallb is_space ws2 = true ->
  forallb not_dquote v = true ->
  (ne = true -> v <> []) ->
  match_assign key ne (assignment (assign_head key ws1 ws2) v t)
  = Some (assign_head key ws1 ws2, v, t).
Proof.
  intros H1 H2 Hv Hne. unfold match_assign, assignment, assign_head.
  rewrite <- !app_assoc. rewrite prefixb_app.
  rewrite skipn_app, skipn_all, Nat.sub_diag. simpl skipn. rewrite !app_nil_l.
  destruct (while_stop is_space ws1
              (ws2 ++ dquote :: v ++ dquote :: t) equals H1 eq_refl) as [T1 D1].
  change ((equals :: ws2) ++ dquote :: v ++ dquote :: t)
    with (equals :: ws2 ++ dquote :: v ++ dquote :: t).
  rewrite T1, D1. rewrite N.eqb_refl.
  destruct (while_stop is_space ws2 (v ++ dquote :: t) dquote H2 eq_refl) as [T2 D2].
  rewrite T2, D2. rewrite N.eqb_refl.
  destruct (while_stop not_dquote v t dquote Hv eq_refl) as [T3 D3].
  rewrite T3, D3.
  destruct ne; simpl; [|reflexivity].
  destruct v; [now specialize (Hne eq_refl) | reflexivity].
Qed.

Lemma search_unfold {R : Type} (m : jsstring -> option R) (b rest : jsstring) :
  search m b rest =
  match m rest with
  | Some r => Some (rev b, r)
  | None =>
      match rest with
      | [] => None
      | c :: rest' => search m (c :: b) rest'
      end
  end.
Proof. destruct rest; reflexivity. Qed.

(** A search result is the leftmost position where an attempt succeeds. *)
Lemma search_found {R : Type} (m : jsstring -> option R) :
  forall (rest before_rev before : jsstring) (r : R),
    search m before_rev rest = Some (before, r) ->
    exists skipped rest',
      rest = skipped ++ rest' /\ before = rev before_rev ++ skipped
      /\ m rest' = Some r
      /\ forall a b, skipped = a ++ b -> b <> [] -> m (b ++ rest') = None.
Proof.
  assert (Hnil : forall (rest' : jsstring) a b,
            @nil N = a ++ b -> b <> [] -> m (b ++ rest') = None).
  { intros rest' a b Hab Hb. destruct a, b; try discriminate. contradiction. }
  induction rest as [|c rest IH]; intros before_rev before r; rewrite search_unfold.
  - destruct (m []) as [r0|] eqn:Hm; [|discriminate].
    intros H. injection H as <- <-. exists [], [].
    split; [reflexivity|]. split; [now rewrite app_nil_r|]. split; [exact Hm|]. apply Hnil.
  - destruct (m (c :: rest)) as [r0|] eqn:Hm.
    + intros H. injection H as <- <-. exists [], (c :: rest).
      split; [reflexivity|]. split; [now rewrite app_nil_r|]. split; [exact Hm|]. apply Hnil.
    + intros H. destruct (IH _ _ _ H) as [sk [rest' [-> [-> [Hr Hmin]]]]].
      exists (c :: sk), rest'.
      split; [reflexivity|]. split; [simpl; now rewrite <- app_assoc|].
      split; [exact Hr|].
      intros a b Hab Hb. destruct a as [|x a].
      * simpl in Hab. subst b. exact Hm.
      * injection Hab as _ Hab. now apply (Hmin a b).
Qed.

Lemma search_first {R : Type} (m : jsstring -> option R) (rest' : jsstring) (r : R) :
  m rest' = Some r ->
  forall (skipped before_rev : jsstring),
    (forall a b, skipped = a ++ b -> b <> [] -> m (b ++ rest') = None) ->
    search m before_rev (skipped ++ rest') = Some (rev before_rev ++ skipped, r).
Proof.
  intros Hr. induction skipped as [|c sk IH]; intros before_rev Hmin;
    rewrite search_unfold.
  - simpl. rewrite Hr. now rewrite app_nil_r.
  - rewrite (Hmin [] (c :: sk)) by (auto; discriminate).
    cbn [app]. rewrite IH.
    + simpl. now rewrite <- app_assoc.
    + intros a b Hab Hb. apply (Hmin (c :: a) b); [now rewrite Hab | exact Hb].
Qed.

Lemma expand_plain (captures : list jsstring) (matched before after t : jsstring) :
  no_dollar t = true -> expand captures matched before after t = t.
Proof.
  induction t as [|c t IH]; simpl; [reflexivity|].
  intros H. apply andb_true_iff in H as [Hc Ht].
  apply negb_true_iff in Hc. rewrite Hc. now rewrite IH.
Qed.

(** The replacement string of [rewriteApiVersion], for a new version
    without a dollar sign: the first group, then the version in quotes. *)
Lemma expand_template (head matched before after v : jsstring) :
  no_dollar v = true ->
  expand [head] matched before after (lit "$1" ++ [dquote] ++ v ++ [dquote])
  = head ++ dquote :: v ++ [dquote].
Proof.
  intros Hv. cbn.
  change (nth_error [head] (Pos.to_nat 1 - 1)) with (Some head).
  cbv iota. f_equal. f_equal.
  apply (expand_plain [head] matched before after (v ++ [dquote])).
  unfold no_dollar in *. now rewrite forallb_app, Hv.
Qed.

Lemma forallb_impl (p q : N -> bool) (l : jsstring) :
  (forall c, p c = true -> q c = true) ->
  forallb p l = true -> forallb q l = true.
Proof.
  intros Hpq. induction l as [|c l IH]; simpl; [reflexivity|].
  intros H. apply andb_true_iff in H as [Hc Hl]. now rewrite (Hpq c Hc), IH.
Qed.

Lemma space_not_dquote (c : N) : is_space c = true -> not_dquote c = true.
Proof.
  unfold not_dquote. destruct (N.eqb_spec c dquote) as [->|_]; [discriminate | reflexivity].
Qed.

Lemma assign_head_no_dquote (key ws1 ws2 : jsstring) :
  key_ok key = true ->
  forallb is_space ws1 = true -> forallb is_space ws2 = true ->
  forallb not_dquote (assign_head key ws1 ws2) = true.
Proof.
  intros Hk H1 H2. unfold key_ok in Hk. apply andb_true_iff in Hk as [_ Hk].
  unfold assign_head.
  rewrite forallb_app, forallb_app. simpl.
  rewrite (forallb_impl _ _ _ space_not_dquote H1).
  rewrite (forallb_impl _ _ _ space_not_dquote H2).
  rewrite (forallb_impl _ not_dquote _ (fun c H =>
             proj2 (proj1 (andb_true_iff _ _) H)) Hk).
  reflexivity.
Qed.

Lemma head_shift_impossible (key b ws1 ws2 w1 w2 : jsstring) :
  key_ok key = true -> b <> [] ->
  forallb is_space w1 = true -> forallb is_space w2 = true ->
  b ++ assign_head key ws1 ws2 = assign_head key w1 w2 -> False.
Proof.
  intros Hk Hb H1 H2 Heq. unfold key_ok in Hk.
  apply andb_true_iff in Hk as [Hne Hk].
  assert (Hkey : key <> []) by (intros ->; discriminate).
  destruct (exists_last Hkey) as [k0 [kl ->]].
  rewrite forallb_app in Hk. apply andb_true_iff in Hk as [_ Hkl].
  simpl in Hkl. rewrite andb_true_r in Hkl.
  apply andb_true_iff in Hkl as [Hkl _]. apply andb_true_iff in Hkl as [Hsp Heq'].
  apply negb_true_iff in Hsp. apply negb_true_iff, N.eqb_neq in Heq'.
  apply (f_equal (skipn (List.length (k0 ++ [kl])))) in Heq.
  unfold assign_head in Heq.
  rewrite (skipn_app _ (k0 ++ [kl])), skipn_all, Nat.sub_diag in Heq.
  change ([] ++ skipn 0 (w1 ++ equals :: w2)) with (w1 ++ equals :: w2) in Heq.
  assert (Hin : In kl (skipn (List.length (k0 ++ [kl]))
                         (b ++ (k0 ++ [kl]) ++ ws1 ++ equals :: ws2))).
  { replace (b ++ (k0 ++ [kl]) ++ ws1 ++ equals :: ws2)
      with ((b ++ k0) ++ kl :: ws1 ++ equals :: ws2)
      by (rewrite <- !app_assoc; reflexivity).
    rewrite skipn_app.
    replace (List.length (k0 ++ [kl]) - List.length (b ++ k0))%nat with 0%nat.
    - change (skipn 0 (kl :: ws1 ++ equals :: ws2)) with (kl :: ws1 ++ equals :: ws2).
      apply in_or_app. right. now left.
    - rewrite !List.length_app. simpl. destruct b; [contradiction | simpl; lia]. }
  rewrite Heq in Hin. apply in_app_or in Hin as [Hin|[Hin|Hin]].
  - rewrite forallb_forall in H1. rewrite (H1 _ Hin) in Hsp. discriminate.
  - congruence.
  - rewrite forallb_forall in H2. rewrite (H2 _ Hin) in Hsp. discriminate.
Qed.

Lemma split_at_dquote (l : jsstring) :
  forallb not_dquote l = false ->
  exists a r, l = a ++ dquote :: r /\ forallb not_dquote a = true.
Proof.
  intros Hl. destruct (dropWhile not_dquote l) as [|q r] eqn:Hd.
  - pose proof (take_drop_while not_dquote l) as H. rewrite Hd, app_nil_r in H.
    rewrite <- H, takeWhile_forallb in Hl. discriminate.
  - apply dropWhile_head in Hd as Hq. unfold not_dquote in Hq.
    apply negb_false_iff, N.eqb_eq in Hq. subst q.
    exists (takeWhile not_dquote l), r. split; [|apply takeWhile_forallb].
    now rewrite <- Hd, take_drop_while.
Qed.

(** An attempt that succeeds on the rewritten text at a position before
    the rewritten assignment succeeds on the original text at the same
    position: what it reads ends at or before the opening quote of the
    assignment. *)
Lemma attempt_transfers (key : jsstring) (ne : bool)
    (b ws1 ws2 v old tail : jsstring) (r : jsstring * jsstring * jsstring) :
  key_ok key = true -> b <> [] ->
  forallb is_space ws1 = true -> forallb is_space ws2 = true ->
  match_assign key ne (b ++ assignment (assign_head key ws1 ws2) v tail) = Some r ->
  exists r',
    match_assign key false (b ++ assignment (assign_head key ws1 ws2) old tail)
    = Some r'.
Proof.
  intros Hk Hb H1 H2 Hm. destruct r as [[h' v'] t'].
  apply match_assign_sound in Hm as [w1 [w2 [Hw1 [Hw2 [-> [Hv' [Heq _]]]]]]].
  pose proof (assign_head_no_dquote key ws1 ws2 Hk H1 H2) as Hh.
  pose proof (assign_head_no_dquote key w1 w2 Hk Hw1 Hw2) as Hh'.
  set (h := assign_head key ws1 ws2) in *.
  set (h' := assign_head key w1 w2) in *.
  unfold assignment in Heq |- *.
  destruct (forallb not_dquote b) eqn:Hbq.
  - (* no quote before the assignment: the two left-hand sides coincide *)
    exfalso. rewrite app_assoc in Heq.
    assert (Hbh : forallb not_dquote (b ++ h) = true)
      by now rewrite forallb_app, Hbq, Hh.
    destruct (first_stop not_dquote _ _ _ _ dquote dquote Hbh Hh' eq_refl eq_refl Heq)
      as [Hsame _].
    exact (head_shift_impossible key b ws1 ws2 w1 w2 Hk Hb Hw1 Hw2 Hsame).
  - (* a quote before the assignment opens the value that is read *)
    destruct (split_at_dquote b Hbq) as [b1 [b2 [-> Hb1]]].
    rewrite <- app_assoc in Heq. simpl in Heq.
    destruct (first_stop not_dquote _ _ _ _ dquote dquote Hb1 Hh' eq_refl eq_refl Heq)
      as [-> [_ Heq2]].
    assert (Hq : forallb not_dquote (b2 ++ h ++ [dquote]) = false).
    { rewrite !forallb_app. simpl. now rewrite !andb_false_r. }
    destruct (split_at_dquote _ Hq) as [v0 [t0 [Hsplit Hv0]]].
    exists (h', v0, t0 ++ old ++ dquote :: tail).
    replace ((h' ++ dquote :: b2) ++ h ++ dquote :: old ++ dquote :: tail)
      with (assignment h' v0 (t0 ++ old ++ dquote :: tail)).
    + apply match_assign_complete; auto. discriminate.
    + unfold assignment.
      replace (h ++ dquote :: old ++ dquote :: tail)
        with ((h ++ [dquote]) ++ old ++ dquote :: tail)
        by (rewrite <- app_assoc; reflexivity).
      rewrite <- !app_assoc. simpl. f_equal. f_equal.
      transitivity ((v0 ++ dquote :: t0) ++ old ++ dquote :: tail);
        [rewrite <- app_assoc; reflexivity|].
      rewrite <- Hsplit. rewrite <- !app_assoc. reflexivity.
Qed.

(** After the first assignment has been given a new value, the first
    position where an attempt succeeds is still that assignment. *)
Lemma search_after_rewrite (key : jsstring) (ne : bool)
    (content before h old tail v : jsstring) :
  key_ok key = true ->
  search (match_assign key false) [] content = Some (before, (h, old, tail)) ->
  forallb not_dquote v = true -> (ne = true -> v <> []) ->
  content = before ++ assignment h old tail
  /\ search (match_assign key ne) [] (before ++ assignment h v tail)
     = Some (before, (h, v, tail)).
Proof.
  intros Hk Hs Hv Hne.
  apply search_found in Hs as [sk [rest' [-> [-> [Hm Hmin]]]]]. simpl.
  apply match_assign_sound in Hm as Hsound.
  destruct Hsound as [ws1 [ws2 [H1 [H2 [-> [_ [-> _]]]]]]].
  split; [reflexivity|].
  apply (search_first (match_assign key ne) _ _
           (match_assign_complete key ne ws1 ws2 v tail H1 H2 Hv Hne) sk []).
  intros a b Hab Hb.
  destruct (match_assign key ne (b ++ assignment (assign_head key ws1 ws2) v tail))
    as [r|] eqn:Hr; [|reflexivity].
  destruct (attempt_transfers key ne b ws1 ws2 v old tail r Hk Hb H1 H2 Hr)
    as [r' Hr'].
  rewrite (Hmin a b Hab Hb) in Hr'. discriminate.
Qed.

Lemma rewriteApiVersion_found (content before h old tail v : jsstring) :
  search (match_assign (lit "api_version") false) [] content
  = Some (before, (h, old, tail)) ->
  no_dollar v = true ->
  rewriteApiVersion content v = before ++ assignment h v tail.
Proof.
  intros Hs Hv. unfold rewriteApiVersion. rewrite Hs.
  rewrite expand_template by exact Hv.
  unfold assignment. rewrite <- !app_assoc. simpl. rewrite <- !app_assoc.
  reflexivity.
Qed.

Lemma search_none {R : Type} (m : jsstring -> option R) :
  forall (rest before_rev : jsstring),
    search m before_rev rest = None ->
    forall a b, rest = a ++ b -> m b = None.
Proof.
  induction rest as [|c rest IH]; intros before_rev; rewrite search_unfold.
  - destruct (m []) eqn:Hm; [discriminate|]. intros _ a b Hab.
    destruct a, b; try discriminate. exact Hm.
  - destruct (m (c :: rest)) eqn:Hm; [discriminate|]. intros H a b Hab.
    destruct a as [|x a].
    + simpl in Hab. now subst b.
    + injection Hab as _ Hab. exact (IH _ H a b Hab).
Qed.

Lemma search_weaken {R : Type} (m1 m2 : jsstring -> option R) :
  (forall rest r, m1 rest = Some r -> exists r', m2 rest = Some r') ->
  forall (rest before_rev : jsstring) x,
    search m1 before_rev rest = Some x ->
    exists y, search m2 before_rev rest = Some y.
Proof.
  intros Hm. induction rest as [|c rest IH]; intros before_rev x;
    rewrite (search_unfold m1 before_rev), (search_unfold m2 before_rev).
  - destruct (m1 []) eqn:H1; [|discriminate].
    destruct (Hm _ _ H1) as [r' ->]. eauto.
  - destruct (m2 (c :: rest)) eqn:H2; [eauto|].
    destruct (m1 (c :: rest)) eqn:H1.
    + destruct (Hm _ _ H1) as [r' Hr']. congruence.
    + apply IH.
Qed.

Lemma match_assign_plus_star (key rest : jsstring) r :
  match_assign key true rest = Some r ->
  exists r', match_assign key false rest = Some r'.
Proof.
  destruct r as [[h v] t]. intros H.
  apply match_assign_sound in H as [ws1 [ws2 [H1 [H2 [-> [Hv [-> _]]]]]]].
  eexists. apply match_assign_complete; auto. discriminate.
Qed.

Lemma extract_assigned_found (key content v : jsstring) :
  extract_assigned key content = Some v ->
  v <> [] /\ forallb not_dquote v = true
  /\ exists before ws1 ws2 tail,
       forallb is_space ws1 = true /\ forallb is_space ws2 = true
       /\ content = before ++ assignment (assign_head key ws1 ws2) v tail.
Proof.
  unfold extract_assigned.
  destruct (search (match_assign key true) [] content) as [[before [[h v'] t]]|] eqn:Hs;
    [|discriminate].
  intros H. injection H as ->.
  apply search_found in Hs as [sk [rest' [-> [_ [Hm _]]]]].
  apply match_assign_sound in Hm as [ws1 [ws2 [H1 [H2 [-> [Hv [-> Hne]]]]]]].
  split; [now apply Hne|]. split; [exact Hv|].
  exists sk, ws1, ws2, t. auto.
Qed.

(** X17: What an extractor returns stands in the text: the value is not empty,
    holds no double quote, and is written between double quotes after the
    key, white space, an equals sign and white space.  This covers
    [extractTarget], [extractApiVersion] and [extractExtensionType]. *)
Theorem extract_assigned_sound (key content v : jsstring) :
  extract_assigned key content = Some v ->
  v <> [] /\ forallb not_dquote v = true
  /\ exists before ws1 ws2 tail,
       forallb is_space ws1 = true /\ forallb is_space ws2 = true
       /\ content = before ++ assignment (assign_head key ws1 ws2) v tail.
Proof. apply extract_assigned_found. Qed.

Lemma extract_assigned_sound_witness :
  lit "cart.transform.run" <> []
  /\ forallb not_dquote (lit "cart.transform.run") = true
  /\ exists before ws1 ws2 tail,
       forallb is_space ws1 = true /\ forallb is_space ws2 = true
       /\ lit "  target  = " ++ quoted (lit "cart.transform.run") ++ [newline]
          = before ++ assignment (assign_head (lit "target") ws1 ws2)
                        (lit "cart.transform.run") tail.
Proof.
  apply (extract_assigned_sound (lit "target")
           (lit "  target  = " ++ quoted (lit "cart.transform.run") ++ [newline])).
  vm_compute. reflexivity.
Defined.

(** X18: An extractor returns [null] on a text in which its key does not
    occur. *)
Theorem extract_assigned_absent (key content : jsstring) :
  ~ occurs key content -> extract_assigned key content = None.
Proof.
  intros Hno. destruct (extract_assigned key content) as [v|] eqn:He; [|reflexivity].
  exfalso. apply Hno.
  apply extract_assigned_found in He
    as [_ [_ [before [ws1 [ws2 [tail [_ [_ ->]]]]]]]].
  unfold assignment, assign_head. exists before.
  eexists. rewrite <- !app_assoc. reflexivity.
Qed.

Lemma extract_assigned_absent_witness :
  extract_assigned (lit "api_version") (lit "type = 'function'") = None.
Proof.
  apply (extract_assigned_absent (lit "api_version") (lit "type = 'function'")).
  intros H. apply includes_occurs in H. vm_compute in H. discriminate H.
Defined.

(** X19: What [rewriteApiVersion] changes, for a new version without a dollar
    sign: when the text holds no assignment to [api_version] it is
    returned as it is; otherwise the text splits at its first assignment
    (no assignment starts at an earlier offset), the value of that
    assignment is replaced and the text before it, its left-hand side and
    the text after it are kept. *)
Theorem rewriteApiVersion_frame (content v : jsstring) :
  no_dollar v = true ->
  (rewriteApiVersion content v = content
   /\ forall before ws1 ws2 old tail,
        forallb is_space ws1 = true -> forallb is_space ws2 = true ->
        forallb not_dquote old = true ->
        content <> before ++ assignment (assign_head (lit "api_version") ws1 ws2)
                               old tail)
  \/ exists before ws1 ws2 old tail,
       forallb is_space ws1 = true /\ forallb is_space ws2 = true
       /\ forallb not_dquote old = true
       /\ content = before ++ assignment (assign_head (lit "api_version") ws1 ws2)
                               old tail
       /\ (forall earlier later ws1' ws2' old' tail',
             before = earlier ++ later -> later <> [] ->
             forallb is_space ws1' = true -> forallb is_space ws2' = true ->
             forallb not_dquote old' = true ->
             later ++ assignment (assign_head (lit "api_version") ws1 ws2) old tail
             <> assignment (assign_head (lit "api_version") ws1' ws2') old' tail')
       /\ rewriteApiVersion content v
          = before ++ assignment (assign_head (lit "api_version") ws1 ws2) v tail.
Proof.
  intros Hv.
  destruct (search (match_assign (lit "api_version") false) [] content)
    as [[before [[h old] tail]]|] eqn:Hs.
  - right. rewrite (rewriteApiVersion_found _ _ _ _ _ _ Hs Hv).
    apply search_found in Hs as [sk [rest' [-> [-> [Hm Hmin]]]]].
    apply match_assign_sound in Hm as [ws1 [ws2 [H1 [H2 [-> [Hold [-> _]]]]]]].
    exists sk, ws1, ws2, old, tail. simpl.
    split; [exact H1|]. split; [exact H2|]. split; [exact Hold|].
    split; [reflexivity|]. split; [|reflexivity].
    intros earlier later ws1' ws2' old' tail' Hsplit Hlater H1' H2' Hold' Heq.
    pose proof (Hmin earlier later Hsplit Hlater) as Hnone.
    rewrite Heq in Hnone.
    rewrite match_assign_complete in Hnone by (auto; discriminate).
    discriminate Hnone.
  - left. split; [unfold rewriteApiVersion; now rewrite Hs|].
    intros before ws1 ws2 old tail H1 H2 Hold Heq.
    pose proof (search_none _ _ _ Hs before _ Heq) as Hnone.
    rewrite match_assign_complete in Hnone by (auto; discriminate).
    discriminate.
Qed.

Lemma rewriteApiVersion_frame_witness :
  (rewriteApiVersion two_versions (lit "2026-01") = two_versions
   /\ forall before ws1 ws2 old tail,
        forallb is_space ws1 = true -> forallb is_space ws2 = true ->
        forallb not_dquote old = true ->
        two_versions
        <> before ++ assignment (assign_head (lit "api_version") ws1 ws2) old tail)
  \/ exists before ws1 ws2 old tail,
       forallb is_space ws1 = true /\ forallb is_space ws2 = true
       /\ forallb not_dquote old = true
       /\ two_versions
          = before ++ assignment (assign_head (lit "api_version") ws1 ws2) old tail
       /\ (forall earlier later ws1' ws2' old' tail',
             before = earlier ++ later -> later <> [] ->
             forallb is_space ws1' = true -> forallb is_space ws2' = true ->
             forallb not_dquote old' = true ->
             later ++ assignment (assign_head (lit "api_version") ws1 ws2) old tail
             <> assignment (assign_head (lit "api_version") ws1' ws2') old' tail')
       /\ rewriteApiVersion two_versions (lit "2026-01")
          = before ++ assignment (assign_head (lit "api_version") ws1 ws2)
                        (lit "2026-01") tail.
Proof.
  apply (rewriteApiVersion_frame two_versions (lit "2026-01")).
  reflexivity.
Defined.

(** X20: Round trip: on a text from which [extractApiVersion] returns a
    version, rewriting to a new version that is not empty and holds no
    double quote and no dollar sign makes [extractApiVersion] return the
    new version. *)
Theorem extract_after_rewriteApiVersion (content old v : jsstring) :
  extractApiVersion content = Some old ->
  v <> [] -> forallb not_dquote v = true -> no_dollar v = true ->
  extractApiVersion (rewriteApiVersion content v) = Some v.
Proof.
  intros He Hne Hq Hd.
  unfold extractApiVersion, extract_assigned in He.
  destruct (search (match_assign (lit "api_version") true) [] content)
    as [x|] eqn:Hplus; [|discriminate].
  destruct (search_weaken _ _ (match_assign_plus_star (lit "api_version")) _ _ _ Hplus)
    as [[before [[h old'] tail]] Hstar].
  rewrite (rewriteApiVersion_found _ _ _ _ _ _ Hstar Hd).
  destruct (search_after_rewrite (lit "api_version") true content before h old' tail v
              eq_refl Hstar Hq (fun _ => Hne)) as [_ Hfound].
  unfold extractApiVersion, extract_assigned. now rewrite Hfound.
Qed.

Lemma extract_after_rewriteApiVersion_witness :
  extractApiVersion
    (rewriteApiVersion
       (lit "name = " ++ quoted (lit "x") ++ [newline]
        ++ lit "api_version = " ++ quoted (lit "2025-07") ++ [newline])
       (lit "2026-01"))
  = Some (lit "2026-01").
Proof.
  apply (extract_after_rewriteApiVersion
           (lit "name = " ++ quoted (lit "x") ++ [newline]
            ++ lit "api_version = " ++ quoted (lit "2025-07") ++ [newline])
           (lit "2025-07") (lit "2026-01")).
  - vm_compute. reflexivity.
  - discriminate.
  - reflexivity.
  - reflexivity.
Defined.

(** X21: Rewriting twice to the same version, one without double quote and
    dollar sign, gives what rewriting once gives. *)
Theorem rewriteApiVersion_idempotent (content v : jsstring) :
  forallb not_dquote v = true -> no_dollar v = true ->
  rewriteApiVersion (rewriteApiVersion content v) v = rewriteApiVersion content v.
Proof.
  intros Hq Hd.
  destruct (search (match_assign (lit "api_version") false) [] content)
    as [[before [[h old] tail]]|] eqn:Hs.
  - rewrite (rewriteApiVersion_found _ _ _ _ _ _ Hs Hd).
    destruct (search_after_rewrite (lit "api_version") false content before h old tail v
                eq_refl Hs Hq ltac:(discriminate)) as [_ Hfound].
    exact (rewriteApiVersion_found _ _ _ _ _ _ Hfound Hd).
  - unfold rewriteApiVersion. now rewrite Hs, Hs.
Qed.

Lemma rewriteApiVersion_idempotent_witness :
  rewriteApiVersion
    (rewriteApiVersion (lit "api_version=" ++ quoted (lit "2025-07")) (lit "2026-01"))
    (lit "2026-01")
  = rewriteApiVersion (lit "api_version=" ++ quoted (lit "2025-07")) (lit "2026-01").
Proof.
  apply (rewriteApiVersion_idempotent (lit "api_version=" ++ quoted (lit "2025-07"))
           (lit "2026-01")); reflexivity.
Defined.

(** ** What the driver asks of an element *)

Lemma occurs_trans (a b c : jsstring) : occurs a b -> occurs b c -> occurs a c.
Proof.
  intros [p1 [q1 ->]] [p2 [q2 ->]]. exists (p2 ++ p1), (q1 ++ q2).
  now rewrite <- !app_assoc.
Qed.

Lemma extractProp_names (fuel : nat) (body name v : jsstring) :
  extractProp fuel body name = Some (Some v) ->
  exists blanks,
    forallb is_blank blanks = true /\ occurs (name ++ blanks ++ [colon]) body.
Proof.
  intros H. apply extractProp_loop_sound in H; [|lia]. tauto.
Qed.

(** X11: A file is changed only if it holds the three property names, each
    followed by spaces and a colon: a file that lacks one of [value],
    [targets] and [message] written that way is returned as it is. *)
Theorem rewrite_needs_three_properties (fuel : nat) (content out : jsstring) :
  rewriteShippingDiscountOutput fuel content = Some out ->
  out = content
  \/ forall name, In name [lit "value"; lit "targets"; lit "message"] ->
       exists blanks,
         forallb is_blank blanks = true
         /\ occurs (name ++ blanks ++ [colon]) content.
Proof.
  intros H. apply rewrite_frame in H as [->|[es [ee [p [[sf [_ Hshape]] _]]]]];
    [now left|].
  right. revert Hshape. unfold checkShape.
  set (body := substring content (es + 1) ee).
  destruct (includes body marker); [discriminate|].
  destruct (extractProp fuel body (lit "value")) as [[v|]|] eqn:Hv;
    destruct (extractProp fuel body (lit "targets")) as [[t|]|] eqn:Ht;
    destruct (extractProp fuel body (lit "message")) as [[m|]|] eqn:Hm;
    try discriminate.
  intros _ name Hin.
  assert (Hbody : occurs body content) by apply occurs_substring.
  destruct Hin as [<-|[<-|[<-|[]]]].
  - destruct (extractProp_names _ _ _ _ Hv) as [bl [Hbl Hocc]].
    exists bl. split; [exact Hbl | exact (occurs_trans _ _ _ Hocc Hbody)].
  - destruct (extractProp_names _ _ _ _ Ht) as [bl [Hbl Hocc]].
    exists bl. split; [exact Hbl | exact (occurs_trans _ _ _ Hocc Hbody)].
  - destruct (extractProp_names _ _ _ _ Hm) as [bl [Hbl Hocc]].
    exists bl. split; [exact Hbl | exact (occurs_trans _ _ _ Hocc Hbody)].
Qed.

Lemma rewrite_needs_three_properties_witness :
  own_line_rewritten = own_line_file
  \/ forall name, In name [lit "value"; lit "targets"; lit "message"] ->
       exists blanks,
         forallb is_blank blanks = true
         /\ occurs (name ++ blanks ++ [colon]) own_line_file.
Proof.
  apply (rewrite_needs_three_properties 7 own_line_file own_line_rewritten).
  vm_compute. reflexivity.
Defined.
